(** * Restaurant reservation system: tables, customers and the waitlist

    A shallow embedding of [Restaurant_Reservation_System/Restaurant.cpp]
    (the [Restaurant] class: constructor, [reserveTable], [printWaitlist],
    [releaseTable], [notifyWaitlist]) together with the parts of the C++
    memory model its behaviour depends on: [shared_ptr] / [weak_ptr]
    ownership of customers and the [erase]/[remove_if] idiom of
    [removeElement].

    Conventions.
    - [int] values are modelled in [Z].  The constructor's counter never
      exceeds [initialTableCount + 1], so the model is exact whenever that
      value is representable (beyond it [i++] would overflow, which C++
      leaves undefined).
    - A customer is identified by its control block, a [ptr].  Two smart
      pointers share ownership exactly when they carry the same [ptr].
    - [cout] is modelled as the list of lines a call prints. *)

From Stdlib Require Import Floats.
From stdpp Require Import base numbers list strings.

Set Default Proof Using "Type".

(** ** Tables *)

Record Table := { number : Z; isAvailable : bool }.

(** Modelled from the spec: [Table.cpp] is not among the sources.  The
    repository documents [Table(int num)], [reserve()] ("mark as occupied"),
    [release()] ("mark as available"), [getIsAvailable()] and [getNumber()];
    a table starts free.  The spec's [occupy]/[release] additionally fail on
    a table that is already in the target state; [Restaurant] calls
    [reserve] only under [getIsAvailable()] and [release] only under
    [!getIsAvailable()], so those failures cannot be triggered from it. *)
Definition Table_new (num : Z) : Table :=
  {| number := num; isAvailable := true |}.

(** Modelled from the spec: [Table::reserve], "mark as occupied". *)
Definition Table_reserve (t : Table) : Table :=
  {| number := number t; isAvailable := false |}.

(** Modelled from the spec: [Table::release], "mark as available". *)
Definition Table_release (t : Table) : Table :=
  {| number := number t; isAvailable := true |}.

Definition getIsAvailable (t : Table) : bool := isAvailable t.
Definition getNumber (t : Table) : Z := number t.

(** ** Customers and smart pointers *)

Record Customer := { name : string }.
Definition getName (c : Customer) : string := name c.

(** A control block.  [shared_ptr<Customer>] and [weak_ptr<Customer>] are
    both represented by the control block they refer to; what differs is
    whether the reference is counted in [use_count]. *)
Abbreviation ptr := nat (only parsing).

(** The restaurant's three vectors. *)
Record Restaurant := {
  tables : list Table;            (* vector<unique_ptr<Table>>   *)
  activeCustomers : list ptr;     (* vector<shared_ptr<Customer>> *)
  waitlist : list ptr             (* vector<weak_ptr<Customer>>   *)
}.

(** The memory outside the restaurant: the customer objects, and the
    [shared_ptr]s the surrounding application currently holds (one list
    entry per owning pointer, such as [customer1] .. [customer4] of
    [main]). *)
Record Heap := {
  object : ptr → Customer;
  external : list ptr
}.

(** [use_count]: the owning references are the application's and the
    entries of [activeCustomers]; waitlist entries do not count. *)
Definition use_count (h : Heap) (r : Restaurant) (p : ptr) : nat :=
  count_occ Nat.eq_dec (external h ++ activeCustomers r) p.

(** [weak_ptr::lock]: an owning pointer if the object still exists. *)
Definition lock (h : Heap) (r : Restaurant) (w : ptr) : option ptr :=
  if decide (0 < use_count h r w) then Some w else None.

Definition live (h : Heap) (r : Restaurant) (p : ptr) : bool :=
  bool_decide (0 < use_count h r p).

(** [a.owner_before(b)]: a strict order on control blocks. *)
Definition owner_before (a b : ptr) : bool := a <? b.

(** ** Output *)

Inductive Line :=
| Reserved (tableNumber : Z) (customer : string)
    (* "Reserved table N for NAME ." *)
| NoTablesFree (customer : string)
    (* "No tables free. Added NAME to the waitlist." *)
| WaitlistHeader
    (* "The following people are waiting for a table: " *)
| Waiting (customer : string)
    (* "NAME" *)
| Released (tableNumber : Z)
    (* "Released table N." *)
| AlreadyFree (tableNumber : Z).
    (* "Table N was already free." *)

(** ** removeElement *)

(** Modelled from the spec: [removeElement.hpp] is not among the sources;
    the repository documents the [weak_ptr] overload as
    [vec.erase(std::remove_if(vec.begin(), vec.end(), pred), vec.end())]
    where [pred(element)] is
    [!element.owner_before(ptr) && !ptr.owner_before(element)] and [ptr] is
    captured BY REFERENCE.  [notifyWaitlist] passes [waitlist[0]], an
    element of the very vector being compacted, so the predicate reads that
    slot afresh at every test.  [Ref] records where the reference points:
    to a pointer that is not part of the vector, or to its front slot. *)
Inductive Ref :=
| Outside (p : ptr)
| Front.

Definition deref (vec : list ptr) (ref : Ref) : option ptr :=
  match ref with
  | Outside p => Some p
  | Front => vec !! 0
  end.

Definition pred (vec : list ptr) (ref : Ref) (element : ptr) : bool :=
  match deref vec ref with
  | Some p => negb (owner_before element p) && negb (owner_before p element)
  | None => false
  end.

(** [std::find_if]: index of the first element satisfying [p], or the
    length of the range. *)
Fixpoint find_if (p : ptr → bool) (l : list ptr) : nat :=
  match l with
  | [] => 0
  | x :: l' => if p x then 0 else S (find_if p l')
  end.

(** One turn of the compaction loop of [std::remove_if]: when the
    predicate rejects the element under the read cursor [first], that
    element is move-assigned to the slot under the write cursor [result],
    which then advances.  The slot moved from is behind the read cursor
    and is not the front slot, so it is never read again before [erase]
    drops it; the model leaves it as it is. *)
Definition remove_if_body (ref : Ref) (st : list ptr * nat) (first : nat)
  : list ptr * nat :=
  let '(vec, result) := st in
  match vec !! first with
  | None => st
  | Some element =>
      if pred vec ref element then st
      else (<[result := element]> vec, S result)
  end.

(** [std::remove_if(vec.begin(), vec.end(), pred)]: the compacted vector
    and the index of the new logical end. *)
Definition remove_if (ref : Ref) (vec : list ptr) : list ptr * nat :=
  let first := find_if (pred vec ref) vec in
  if decide (first = length vec) then (vec, first)
  else foldl (remove_if_body ref) (vec, first)
             (seq (S first) (length vec - S first)).

(** Modelled from the spec: [removeElement(vec, ptr)] of
    [removeElement.hpp], as the repository documents it:
    [vec.erase(std::remove_if(vec.begin(), vec.end(), pred), vec.end())]. *)
Definition removeElement (vec : list ptr) (ref : Ref) : list ptr :=
  let '(vec', result) := remove_if ref vec in
  take result vec'.

(** ** The Restaurant class *)

(** [for (int i = 1; i <= initialTableCount; i++) tables.push_back(Table(i))] *)
Fixpoint Restaurant_loop (fuel : nat) (i initialTableCount : Z)
    (tables : list Table) : list Table :=
  match fuel with
  | O => tables
  | S fuel' =>
      if (i <=? initialTableCount)%Z
      then Restaurant_loop fuel' (i + 1)%Z initialTableCount
                           (tables ++ [Table_new i])
      else tables
  end.

Definition Restaurant_new (initialTableCount : Z) : Restaurant :=
  {| tables := Restaurant_loop (Z.to_nat initialTableCount) 1
                               initialTableCount [];
     activeCustomers := [];
     waitlist := [] |}.

(** The loop of [reserveTable]: the first available table is reserved and
    the scan stops ([return true]); [None] when the loop runs off the end. *)
Fixpoint reserve_scan (ts : list Table) : option (Z * list Table) :=
  match ts with
  | [] => None
  | table :: ts' =>
      if getIsAvailable table
      then Some (getNumber table, Table_reserve table :: ts')
      else match reserve_scan ts' with
           | Some (n, ts'') => Some (n, table :: ts'')
           | None => None
           end
  end.

Definition reserveTable (h : Heap) (pointer : ptr) (r : Restaurant)
  : bool * Restaurant * list Line :=
  match reserve_scan (tables r) with
  | Some (n, ts) =>
      (true,
       {| tables := ts;
          activeCustomers := activeCustomers r ++ [pointer];
          waitlist := waitlist r |},
       [Reserved n (getName (object h pointer))])
  | None =>
      (false,
       {| tables := tables r;
          activeCustomers := activeCustomers r;
          waitlist := waitlist r ++ [pointer] |},
       [NoTablesFree (getName (object h pointer))])
  end.

Definition printWaitlist (h : Heap) (r : Restaurant)
  : Restaurant * list Line :=
  (r,
   WaitlistHeader ::
   omap (λ customer,
           match lock h r customer with
           | Some customerPtr => Some (Waiting (getName (object h customerPtr)))
           | None => None
           end) (waitlist r)).

Definition notifyWaitlist (h : Heap) (r : Restaurant)
  : Restaurant * list Line :=
  match waitlist r with
  | [] => (r, [])
  | w0 :: _ =>
      match lock h r w0 with
      | Some customer =>
          let '(_, r1, out) := reserveTable h customer r in
          ({| tables := tables r1;
              activeCustomers := activeCustomers r1;
              waitlist := removeElement (waitlist r1) Front |},
           out)
      | None => (r, [])
      end
  end.

(** The body of the range-for of [releaseTable] at position [i]. *)
Definition releaseTable_body (h : Heap) (tableNumber : Z)
    (st : Restaurant * list Line) (i : nat) : Restaurant * list Line :=
  let '(r, out) := st in
  match tables r !! i with
  | None => st
  | Some table =>
      if decide (getNumber table = tableNumber) then
        if negb (getIsAvailable table) then
          let r1 := {| tables := <[i := Table_release table]> (tables r);
                       activeCustomers := activeCustomers r;
                       waitlist := waitlist r |} in
          let '(r2, out2) := notifyWaitlist h r1 in
          (r2, out ++ Released tableNumber :: out2)
        else (r, out ++ [AlreadyFree tableNumber])
      else st
  end.

(** The range-for visits positions [0 .. size-1]; no call resizes
    [tables], so the range is the one fixed at loop entry. *)
Definition releaseTable (h : Heap) (tableNumber : Z) (r : Restaurant)
  : Restaurant * list Line :=
  foldl (releaseTable_body h tableNumber) (r, [])
        (seq 0 (length (tables r))).

(** ** The driver: a restaurant inside an application *)

Record World := { heap : Heap; restaurant : Restaurant }.

(** What the surrounding application can do: the three public calls, and
    creating customers or dropping its own [shared_ptr]s, which replaces the
    list of pointers it holds. *)
Inductive Action :=
| Request (pointer : ptr)
| Release (tableNumber : Z)
| ListWaiting
| Application (held : list ptr).

Definition step (a : Action) (w : World) : World * list Line :=
  match a with
  | Request pointer =>
      let '(_, r, out) := reserveTable (heap w) pointer (restaurant w) in
      ({| heap := heap w; restaurant := r |}, out)
  | Release tableNumber =>
      let '(r, out) := releaseTable (heap w) tableNumber (restaurant w) in
      ({| heap := heap w; restaurant := r |}, out)
  | ListWaiting =>
      let '(r, out) := printWaitlist (heap w) (restaurant w) in
      ({| heap := heap w; restaurant := r |}, out)
  | Application held =>
      ({| heap := {| object := object (heap w); external := held |};
          restaurant := restaurant w |}, [])
  end.

(** Which actions C++ allows.  [reserveTable] dereferences its argument, so
    the [shared_ptr] passed must own a customer.  An expired [weak_ptr]
    never locks again: the application cannot bring back a customer the
    waitlist still refers to once its last owner is gone. *)
Definition admissible (a : Action) (w : World) : bool :=
  match a with
  | Request pointer => live (heap w) (restaurant w) pointer
  | Application held =>
      forallb (λ c, implb
                 (live {| object := object (heap w); external := held |}
                       (restaurant w) c)
                 (live (heap w) (restaurant w) c))
              (waitlist (restaurant w))
  | _ => true
  end.

Fixpoint run (tr : list Action) (w : World) : World * list Line :=
  match tr with
  | [] => (w, [])
  | a :: tr' =>
      let '(w1, out1) := step a w in
      let '(w2, out2) := run tr' w1 in
      (w2, out1 ++ out2)
  end.

(** A trace is allowed by [ok] when each action is, in the state it is
    issued in. *)
Fixpoint trace_ok (ok : Action → World → bool) (tr : list Action) (w : World)
  : bool :=
  match tr with
  | [] => true
  | a :: tr' => ok a w && trace_ok ok tr' (step a w).1
  end.

Definition admissible_trace (tr : list Action) (w : World) : bool :=
  trace_ok admissible tr w.

Definition init (h : Heap) (initialTableCount : Z) : World :=
  {| heap := h; restaurant := Restaurant_new initialTableCount |}.

(** The states a restaurant of the given capacity can be in. *)
Definition reachable (initialTableCount : Z) (w : World) : Prop :=
  ∃ h tr, admissible_trace tr (init h initialTableCount) = true
          ∧ (run tr (init h initialTableCount)).1 = w.

(** [reserveTable] for each customer in turn, as [main] does for
    [customer1] .. [customer4], keeping every call's return value and
    what it printed. *)
Fixpoint reserveAll (h : Heap) (cs : list ptr) (r : Restaurant)
  : list (bool * list Line) * Restaurant :=
  match cs with
  | [] => ([], r)
  | c :: cs' =>
      let '(b, r1, out) := reserveTable h c r in
      let '(results, r2) := reserveAll h cs' r1 in
      ((b, out) :: results, r2)
  end.

(** [main.cpp]: four customers, two tables. *)
Definition main_object (p : ptr) : Customer :=
  match p with
  | 1 => {| name := "Morgan" |}
  | 2 => {| name := "Lottie" |}
  | 3 => {| name := "Nathan" |}
  | _ => {| name := "Dai" |}
  end.

Definition main_heap : Heap :=
  {| object := main_object; external := [1; 2; 3; 4] |}.

Definition main_trace : list Action :=
  [Request 1; Request 2; Request 3; Request 4; Release 1; ListWaiting].


(** * Library management system

    [Library_Management_System/Library.cpp]: the [Library] class with its
    static borrow counter and the global budget.  [double] is IEEE
    binary64, modelled by the kernel's [float]; [int] counters are
    modelled in [Z] (they only ever count calls made). *)

Module LibrarySystem.

Inductive Line :=
| Book (title : string)           (* "- TITLE" *)
| LibraryFull                     (* "Library is full!" *)
| BookBorrowed                    (* "Book borrowed!" *)
| BookNotFound                    (* "Book not found!" *)
| BookNotReserved                 (* "Book not reserved!" *)
| BookReserved (title : string)   (* "Book reserved: TITLE" *)
| ReservedCount (count : Z).      (* "Reserved book count: N" *)

(** What all libraries share: the static member and the [extern]
    variable. *)
Record Globals := {
  totalBorrowedBooks : Z;
  libraryBudget : float
}.

Record Library := {
  bookList : list string;
  reservedCount : Z;              (* mutable *)
  reservedBooks : list string     (* mutable *)
}.

(** [Library::Library() : reservedCount(0) {}] *)
Definition Library_new : Library :=
  {| bookList := []; reservedCount := 0; reservedBooks := [] |}.

(** [std::find(vec.begin(), vec.end(), s)]: the position of the first
    element equal to [s], or the length of the vector. *)
Fixpoint find (vec : list string) (s : string) : nat :=
  match vec with
  | [] => 0
  | x :: vec' => if decide (x = s) then 0 else S (find vec' s)
  end.

(** Modelled from the spec: [removeElement.hpp] is not among the sources;
    the repository documents the [vector<string>] overload as
    [auto it = find(vec.begin(), vec.end(), s);
     if (it != vec.end()) vec.erase(it);]. *)
Definition removeElement (vec : list string) (s : string) : list string :=
  let it := find vec s in
  if decide (it ≠ length vec) then delete it vec else vec.

(** The loops [for (const auto& x : vec) if (x == title) ...] that stop
    at the first hit: was there one? *)
Fixpoint scan (vec : list string) (title : string) : bool :=
  match vec with
  | [] => false
  | x :: vec' => if decide (x = title) then true else scan vec' title
  end.

Definition listBooks (l : Library) : list Line := Book <$> bookList l.

Definition addBook (title : string) (bookCost : float) (g : Globals)
    (l : Library) : Globals * Library * list Line :=
  if decide (length (bookList l) < 100) then
    ({| totalBorrowedBooks := totalBorrowedBooks g;
        libraryBudget := PrimFloat.sub (libraryBudget g) bookCost |},
     {| bookList := bookList l ++ [title];
        reservedCount := reservedCount l;
        reservedBooks := reservedBooks l |},
     [])
  else (g, l, [LibraryFull]).

Definition borrowBook (title : string) (g : Globals) (l : Library)
  : bool * Globals * Library * list Line :=
  if scan (bookList l) title then
    (true,
     {| totalBorrowedBooks := (totalBorrowedBooks g + 1)%Z;
        libraryBudget := libraryBudget g |},
     {| bookList := removeElement (bookList l) title;
        reservedCount := reservedCount l;
        reservedBooks := reservedBooks l |},
     [BookBorrowed])
  else (false, g, l, [BookNotFound]).


Definition reserveBook (title : string) (l : Library) : Library * list Line :=
  let inLibrary := scan (bookList l) title in
  if negb inLibrary then (l, [BookNotReserved])
  else if scan (reservedBooks l) title then (l, [BookNotReserved])
  else
    ({| bookList := bookList l;
        reservedCount := (reservedCount l + 1)%Z;
        reservedBooks := reservedBooks l ++ [title] |},
     [BookReserved title; ReservedCount (reservedCount l + 1)%Z]).

(** A library in use. *)
Record State := { globals : Globals; library : Library }.

Inductive Action :=
| AddBook (title : string) (bookCost : float)
| BorrowBook (title : string)
| ReserveBook (title : string)
| ListBooks.

Definition step (a : Action) (st : State) : State * list Line :=
  match a with
  | AddBook title bookCost =>
      let '(g, l, out) := addBook title bookCost (globals st) (library st) in
      ({| globals := g; library := l |}, out)
  | BorrowBook title =>
      let '(_, g, l, out) := borrowBook title (globals st) (library st) in
      ({| globals := g; library := l |}, out)
  | ReserveBook title =>
      let '(l, out) := reserveBook title (library st) in
      ({| globals := globals st; library := l |}, out)
  | ListBooks => (st, listBooks (library st))
  end.

Fixpoint run (tr : list Action) (st : State) : State * list Line :=
  match tr with
  | [] => (st, [])
  | a :: tr' =>
      let '(st1, out1) := step a st in
      let '(st2, out2) := run tr' st1 in
      (st2, out1 ++ out2)
  end.

(** A freshly constructed library, whatever the globals hold. *)
Definition init (g : Globals) : State :=
  {| globals := g; library := Library_new |}.

(** The library's own [main.cpp], up to the call of
    [getTotalBorrowedBooks]. *)
Definition main_globals : Globals :=
  {| totalBorrowedBooks := 0; libraryBudget := 5000%float |}.

Definition main_trace : list Action :=
  [AddBook "The Great Gatsby" 300%float; AddBook "1984" 400%float;
   AddBook "To Kill a Mockingbird" 350%float; ListBooks;
   ReserveBook "1984"; BorrowBook "To Kill a Mockingbird"].




Definition count {A : Type} (f : A → bool) (l : list A) : nat :=
  length (filter (λ x, f x = true) l).

End LibrarySystem.

(** * Vocabulary of the properties *)

(** The numbers of the tables, in vector order, and how many tables are
    taken. *)
Definition numbers (r : Restaurant) : list Z := number <$> tables r.

Definition occupied (ts : list Table) : nat :=
  length (filter (λ t, isAvailable t = false) ts).

(** The restaurant with the table at position [k] marked free. *)
Definition freed (k : nat) (t : Table) (r : Restaurant) : Restaurant :=
  {| tables := <[k := Table_release t]> (tables r);
     activeCustomers := activeCustomers r;
     waitlist := waitlist r |}.

(** During compaction the pointer compared against is [target] for good:
    either the reference points outside the vector, or it points to the
    front slot and that slot has been written already. *)
Definition anchored (ref : Ref) (kept : list ptr) (target : ptr) : Prop :=
  match ref with
  | Outside p => p = target
  | Front => kept !! 0 = Some target
  end.

(** What [removeElement(vec, vec[0])] leaves of [h :: q]: the run of
    entries equivalent to [h] that follows the front is dropped; the first
    other entry [e] is moved to the front, and from then on the predicate
    compares against [e]. *)
Fixpoint compact_front (h : ptr) (q : list ptr) : list ptr :=
  match q with
  | [] => []
  | e :: q' =>
      if decide (e = h) then compact_front h q'
      else e :: filter (λ x, x ≠ e) q'
  end.

(** Table numbers are [1 .. initialTableCount], in vector order. *)
Definition pool_numbered (initialTableCount : Z) (r : Restaurant) : Prop :=
  numbers r = seqZ 1 initialTableCount.

(** Every occupied table was handed to a customer that is still listed. *)
Definition holders_cover (r : Restaurant) : Prop :=
  occupied (tables r) ≤ length (activeCustomers r).

(** A customer at the head of the waitlist who could take a table only
    waits while no table is free. *)
Definition head_blocked (h : Heap) (r : Restaurant) : Prop :=
  ∀ w0 q, waitlist r = w0 :: q → live h r w0 = true →
          Forall (λ t, isAvailable t = false) (tables r).

Record invariant (initialTableCount : Z) (w : World) : Prop := {
  inv_numbered : pool_numbered initialTableCount (restaurant w);
  inv_cover : holders_cover (restaurant w);
  inv_blocked : head_blocked (heap w) (restaurant w)
}.

(** The four ways a [releaseTable(n)] call can go, with the state and the
    output it ends in: no table carries the number; the table is free
    already; the table is released and nobody takes it (nobody waits, or
    the head of the waitlist has expired); the table is released and
    handed to the head of the waitlist. *)
Inductive release_case (h : Heap) (r : Restaurant) (n : Z)
  : Restaurant * list Line → Prop :=
| release_unknown :
    n ∉ numbers r →
    release_case h r n (r, [])
| release_free k t :
    tables r !! k = Some t → number t = n → isAvailable t = true →
    release_case h r n (r, [AlreadyFree n])
| release_idle k t :
    tables r !! k = Some t → number t = n → isAvailable t = false →
    (∀ w0 q, waitlist r = w0 :: q → live h r w0 = false) →
    release_case h r n (freed k t r, [Released n])
| release_regrant k t w0 q :
    tables r !! k = Some t → number t = n → isAvailable t = false →
    waitlist r = w0 :: q → live h r w0 = true →
    release_case h r n
      ({| tables := tables r;
          activeCustomers := activeCustomers r ++ [w0];
          waitlist := compact_front w0 q |},
       [Released n; Reserved n (getName (object h w0))]).

(** The head of the waitlist has expired and the waitlist still begins
    with the entries [stuck]. *)
Definition blocked_by (stuck : list ptr) (w : World) : Prop :=
  stuck `prefix_of` waitlist (restaurant w)
  ∧ ∀ w0 q, stuck = w0 :: q → live (heap w) (restaurant w) w0 = false.

(** What one [reserveTable] call does in state [r]: either it reserves the
    first available table of the vector, which is also the available table
    with the smallest number, lists the customer as active and returns
    [true]; or no table is available, the customer joins the tail of the
    waitlist and the call returns [false]. *)
Definition request_outcome (h : Heap) (pointer : ptr) (r : Restaurant) : Prop :=
  match reserveTable h pointer r with
  | (true, r', out) =>
      ∃ k t, tables r !! k = Some t ∧ isAvailable t = true
        ∧ (∀ j t', j < k → tables r !! j = Some t' → isAvailable t' = false)
        ∧ (∀ t', t' ∈ tables r → isAvailable t' = true →
                 (number t ≤ number t')%Z)
        ∧ tables r' = <[k := Table_reserve t]> (tables r)
        ∧ activeCustomers r' = activeCustomers r ++ [pointer]
        ∧ waitlist r' = waitlist r
        ∧ out = [Reserved (number t) (getName (object h pointer))]
  | (false, r', out) =>
      Forall (λ t, isAvailable t = false) (tables r)
      ∧ tables r' = tables r
      ∧ activeCustomers r' = activeCustomers r
      ∧ waitlist r' = waitlist r ++ [pointer]
      ∧ out = [NoTablesFree (getName (object h pointer))]
  end.

(** A request is a first request when its customer is listed neither as
    active nor as waiting. *)
Definition unlisted (a : Action) (w : World) : bool :=
  match a with
  | Request pointer =>
      bool_decide (pointer ∉ activeCustomers (restaurant w)
                             ++ waitlist (restaurant w))
  | _ => true
  end.

Definition first_requests (tr : list Action) (w : World) : bool :=
  trace_ok (λ a w, admissible a w && unlisted a w) tr w.

(** * Properties *)

(** The run of [main.cpp] prints what the repository lists as expected
    output (the driver's own "Success!" lines aside). *)
Example main_output :
  (run main_trace (init main_heap 2)).2
  = [Reserved 1 "Morgan"; Reserved 2 "Lottie";
     NoTablesFree "Nathan"; NoTablesFree "Dai";
     Released 1; Reserved 1 "Nathan";
     WaitlistHeader; Waiting "Dai"].
Proof. reflexivity. Qed.

(** ** removeElement in closed form *)

Lemma owner_equiv (a b : ptr) :
  negb (owner_before a b) && negb (owner_before b a) = bool_decide (a = b).
Proof.
  unfold owner_before.
  destruct (Nat.ltb_spec a b), (Nat.ltb_spec b a); simpl;
    case_bool_decide; (done || lia).
Qed.

Lemma pred_Front (e1 : ptr) (vec : list ptr) (element : ptr) :
  pred (e1 :: vec) Front element = bool_decide (element = e1).
Proof. unfold pred; simpl. apply owner_equiv. Qed.

Lemma remove_if_body_skip (ref : Ref) (vec : list ptr) (result first : nat)
    (e : ptr) :
  vec !! first = Some e → deref vec ref = Some e →
  remove_if_body ref (vec, result) first = (vec, result).
Proof.
  intros Hf H0. unfold remove_if_body, pred. rewrite Hf, H0.
  by rewrite owner_equiv, bool_decide_eq_true_2.
Qed.

Lemma remove_if_body_move (ref : Ref) (vec : list ptr) (result first : nat)
    (e p : ptr) :
  vec !! first = Some e → deref vec ref = Some p → e ≠ p →
  remove_if_body ref (vec, result) first = (<[result := e]> vec, S result).
Proof.
  intros Hf H0 Hne. unfold remove_if_body, pred. rewrite Hf, H0.
  by rewrite owner_equiv, bool_decide_eq_false_2.
Qed.

Lemma anchored_deref (ref : Ref) (kept : list ptr) (target : ptr)
    (tail : list ptr) :
  anchored ref kept target → deref (kept ++ tail) ref = Some target.
Proof.
  destruct ref as [p|]; simpl; [by intros ->|].
  intros Hk. by apply lookup_app_l_Some.
Qed.

Lemma anchored_app (ref : Ref) (kept : list ptr) (target e : ptr) :
  anchored ref kept target → anchored ref (kept ++ [e]) target.
Proof.
  destruct ref as [p|]; simpl; [done|].
  intros Hk. by apply lookup_app_l_Some.
Qed.

(** The loop once the pointer compared against can no longer change:
    [kept] are the entries written so far, [junk] the slots between the
    write and the read cursor, [rest] what is still to be read. *)
Lemma remove_if_compacting (ref : Ref) (target : ptr) (rest : list ptr) :
  ∀ (kept junk : list ptr), anchored ref kept target → junk ≠ [] →
    let st := foldl (remove_if_body ref)
                    (kept ++ junk ++ rest, length kept)
                    (seq (length (kept ++ junk)) (length rest)) in
    take st.2 st.1 = kept ++ filter (λ x, x ≠ target) rest.
Proof.
  induction rest as [|e rest IH]; intros kept junk Hanchor Hjunk.
  - cbn [length seq foldl fst snd]. rewrite filter_nil, !app_nil_r.
    by rewrite take_app_length.
  - cbn [length seq foldl].
    assert (Hlook : (kept ++ junk ++ e :: rest) !! length (kept ++ junk)
                    = Some e).
    { rewrite (assoc_L (++)). by apply list_lookup_middle. }
    pose proof (anchored_deref ref kept target (junk ++ e :: rest) Hanchor)
      as Hderef.
    destruct (decide (e = target)) as [->|Hne].
    + rewrite (remove_if_body_skip _ _ _ _ target) by done.
      rewrite filter_cons_False by (intros ?; done).
      specialize (IH kept (junk ++ [target]) Hanchor).
      replace (length (kept ++ junk ++ [target]))
        with (S (length (kept ++ junk))) in IH
        by (rewrite !length_app; simpl; lia).
      rewrite <- !(assoc_L (++)) in IH.
      apply IH. by destruct junk.
    + rewrite (remove_if_body_move _ _ _ _ e target) by done.
      rewrite filter_cons_True by done.
      destruct junk as [|j junk']; [done|].
      replace (<[length kept:=e]> (kept ++ (j :: junk') ++ e :: rest))
        with ((kept ++ [e]) ++ (junk' ++ [e]) ++ rest).
      2:{ rewrite insert_app_r_alt by lia.
          rewrite Nat.sub_diag. simpl.
          by rewrite <- !(assoc_L (++)). }
      specialize (IH (kept ++ [e]) (junk' ++ [e])
                     (anchored_app _ _ _ e Hanchor)).
      replace (length (kept ++ [e])) with (S (length kept)) in IH
        by (rewrite length_app; simpl; lia).
      replace (length ((kept ++ [e]) ++ junk' ++ [e]))
        with (S (length (kept ++ j :: junk'))) in IH
        by (rewrite !length_app; simpl; lia).
      rewrite IH by (by destruct junk').
      by rewrite <- (assoc_L (++)).
Qed.

(** With the reference into the front slot, the loop starts in a first
    phase: the front still holds [h]; every entry read so far was
    equivalent to it and has been skipped. *)
Lemma remove_if_scanning (rest : list ptr) :
  ∀ (skipped : list ptr) (h : ptr),
    let st := foldl (remove_if_body Front)
                    ((h :: skipped) ++ rest, 0)
                    (seq (length (h :: skipped)) (length rest)) in
    take st.2 st.1 = compact_front h rest.
Proof.
  induction rest as [|e rest IH]; intros skipped h; [done|].
  cbn [length seq foldl compact_front] in *.
  assert (Hlook : ((h :: skipped) ++ e :: rest) !! S (length skipped) = Some e).
  { by apply list_lookup_middle. }
  destruct (decide (e = h)) as [->|Hne].
  - rewrite (remove_if_body_skip _ _ _ _ h) by done.
    specialize (IH (skipped ++ [h]) h).
    rewrite length_app in IH; cbn [length] in IH.
    replace (S (length skipped + 1)) with (S (S (length skipped))) in IH by lia.
    change (h :: skipped ++ [h]) with ((h :: skipped) ++ [h]) in IH.
    rewrite <- (assoc_L (++)) in IH. apply IH.
  - rewrite (remove_if_body_move _ _ _ _ e h) by done.
    pose proof (remove_if_compacting Front e rest [e] (skipped ++ [e])) as Hc.
    cbn [length app] in Hc. rewrite length_app in Hc; cbn [length] in Hc.
    replace (S (length skipped + 1)) with (S (S (length skipped))) in Hc by lia.
    rewrite <- (assoc_L (++)) in Hc.
    apply Hc; [done|by destruct skipped].
Qed.

Lemma find_if_split (p : ptr → bool) (vec : list ptr) :
  (find_if p vec = length vec ∧ Forall (λ x, p x = false) vec)
  ∨ ∃ pre x rest, vec = pre ++ x :: rest ∧ find_if p vec = length pre
                  ∧ Forall (λ x, p x = false) pre ∧ p x = true.
Proof.
  induction vec as [|y vec IH]; simpl; [by left|].
  destruct (p y) eqn:Ey.
  - right. by exists [], y, vec.
  - destruct IH as [[Hlen Hall]|(pre & x & rest & -> & Hlen & Hall & Hx)].
    + left. split; [by rewrite Hlen|by apply Forall_cons].
    + right. exists (y :: pre), x, rest. simpl.
      split_and!; try done; [by rewrite Hlen|by apply Forall_cons].
Qed.

Lemma pred_Outside (vec : list ptr) (p element : ptr) :
  pred vec (Outside p) element = bool_decide (element = p).
Proof. unfold pred; simpl. apply owner_equiv. Qed.

Lemma filter_none_equal (vec : list ptr) (p : ptr) (l : list ptr) :
  Forall (λ x, pred vec (Outside p) x = false) l →
  filter (λ x, x ≠ p) l = l.
Proof.
  induction 1 as [|x l Hx _ IH]; [done|].
  rewrite pred_Outside in Hx. apply bool_decide_eq_false in Hx.
  by rewrite filter_cons_True, IH.
Qed.

(** When the pointer handed to [removeElement] is not a slot of the
    vector, every entry equivalent to it is erased and nothing else. *)
Lemma removeElement_Outside (vec : list ptr) (p : ptr) :
  removeElement vec (Outside p) = filter (λ x, x ≠ p) vec.
Proof.
  unfold removeElement, remove_if.
  destruct (find_if_split (pred vec (Outside p)) vec)
    as [[Hlen Hall]|(pre & x & rest & Hvec & Hlen & Hall & Hx)].
  - rewrite Hlen, decide_True by done.
    by rewrite firstn_all, (filter_none_equal vec).
  - rewrite Hlen. rewrite pred_Outside in Hx.
    apply bool_decide_eq_true in Hx as ->. subst vec.
    rewrite decide_False by (rewrite length_app; simpl; lia).
    replace (length (pre ++ p :: rest) - S (length pre)) with (length rest)
      by (rewrite length_app; simpl; lia).
    pose proof (remove_if_compacting (Outside p) p rest pre [p] eq_refl) as Hc.
    replace (length (pre ++ [p])) with (S (length pre)) in Hc
      by (rewrite length_app; simpl; lia).
    simpl in Hc.
    destruct (foldl _ _ _) as [vec' result]. simpl in Hc.
    rewrite Hc by done. rewrite filter_app, filter_cons_False.
    + by rewrite (filter_none_equal _ _ _ Hall).
    + by intros ?.
Qed.

Lemma removeElement_Front (h : ptr) (q : list ptr) :
  removeElement (h :: q) Front = compact_front h q.
Proof.
  unfold removeElement, remove_if.
  assert (Hfind : find_if (pred (h :: q) Front) (h :: q) = 0).
  { simpl. rewrite pred_Front. by rewrite bool_decide_eq_true_2. }
  rewrite Hfind. simpl.
  destruct (decide (0 = S (length q))) as [?|_]; [lia|].
  rewrite Nat.sub_0_r.
  pose proof (remove_if_scanning q [] h) as Hs. simpl in Hs.
  destruct (foldl _ _ _) as [vec' result]. exact Hs.
Qed.

(** The two agree unless the waitlist repeats a customer: handing the
    front slot itself to [removeElement] lets a later duplicate of the
    front survive, and erases the duplicates of the entry that takes
    its place. *)
Example removeElement_front_slot :
  removeElement [1; 2; 1] Front = [2; 1]
  ∧ removeElement [1; 2; 1] (Outside 1) = [2]
  ∧ removeElement [1; 2; 2] Front = [2]
  ∧ removeElement [1; 2; 2] (Outside 1) = [2; 2].
Proof. by vm_compute. Qed.

Lemma compact_front_fresh (h : ptr) (q : list ptr) :
  NoDup (h :: q) → compact_front h q = q.
Proof.
  intros Hnd. apply NoDup_cons in Hnd as [Hh Hq].
  destruct q as [|e q']; simpl; [done|].
  destruct (decide (e = h)) as [->|_]; [exfalso; apply Hh; left|].
  f_equal. apply NoDup_cons in Hq as [He _].
  clear -He. induction q' as [|x q' IH]; [done|].
  rewrite filter_cons_True.
  - f_equal. apply IH. intros ?; apply He; by right.
  - intros ->. apply He. left.
Qed.

Lemma compact_front_length (h : ptr) (q : list ptr) :
  length (compact_front h q) ≤ length q.
Proof.
  induction q as [|e q' IH]; simpl; [done|].
  destruct (decide (e = h)); simpl; [lia|].
  pose proof (length_filter (λ x, x ≠ e) q'). lia.
Qed.

Lemma compact_front_sublist (h : ptr) (q : list ptr) :
  compact_front h q `sublist_of` q.
Proof.
  induction q as [|e q' IH]; simpl; [done|].
  destruct (decide (e = h)).
  - by apply sublist_cons.
  - apply sublist_skip, sublist_filter.
Qed.

(** ** The pool *)

Lemma Restaurant_loop_spec (fuel : nat) :
  ∀ (i n : Z) (acc : list Table),
    (n - i + 1 ≤ Z.of_nat fuel)%Z →
    Restaurant_loop fuel i n acc = acc ++ (Table_new <$> seqZ i (n - i + 1)).
Proof.
  induction fuel as [|fuel IH]; intros i n acc Hfuel; simpl.
  - rewrite seqZ_nil by lia. by rewrite app_nil_r.
  - destruct (Z.leb_spec i n).
    + rewrite IH by lia. rewrite (seqZ_cons i) by lia.
      rewrite <- (assoc_L (++)). simpl.
      replace (n - (i + 1) + 1)%Z with (Z.pred (n - i + 1)) by lia.
      by replace (i + 1)%Z with (Z.succ i) by lia.
    + rewrite seqZ_nil by lia. by rewrite app_nil_r.
Qed.

(** The constructor's loop stops on its own condition: any larger fuel
    builds the same vector. *)
Lemma Restaurant_loop_enough (fuel : nat) (initialTableCount : Z) :
  Z.to_nat initialTableCount ≤ fuel →
  Restaurant_loop fuel 1 initialTableCount []
  = tables (Restaurant_new initialTableCount).
Proof.
  intros Hfuel. unfold Restaurant_new; simpl.
  rewrite !Restaurant_loop_spec by lia. done.
Qed.

Lemma Restaurant_new_tables (initialTableCount : Z) :
  tables (Restaurant_new initialTableCount)
  = Table_new <$> seqZ 1 initialTableCount.
Proof.
  unfold Restaurant_new; simpl. rewrite Restaurant_loop_spec by lia.
  simpl. do 2 f_equal. lia.
Qed.

Lemma Restaurant_new_numbers (initialTableCount : Z) :
  numbers (Restaurant_new initialTableCount) = seqZ 1 initialTableCount.
Proof.
  unfold numbers. rewrite Restaurant_new_tables, <- list_fmap_compose.
  apply list_fmap_id.
Qed.

Lemma Restaurant_new_free (initialTableCount : Z) :
  Forall (λ t, isAvailable t = true) (tables (Restaurant_new initialTableCount)).
Proof.
  rewrite Restaurant_new_tables. apply Forall_fmap, Forall_true. done.
Qed.

Lemma occupied_all_free (ts : list Table) :
  Forall (λ t, isAvailable t = true) ts → occupied ts = 0.
Proof.
  unfold occupied. induction 1 as [|t ts Ht _ IH]; [done|].
  rewrite filter_cons_False by congruence. done.
Qed.

Lemma occupied_le_length (ts : list Table) : occupied ts ≤ length ts.
Proof. apply length_filter. Qed.

Lemma occupied_insert (ts : list Table) (k : nat) (t t' : Table) :
  ts !! k = Some t →
  occupied (<[k := t']> ts) + (if isAvailable t then 0 else 1)
  = occupied ts + (if isAvailable t' then 0 else 1).
Proof.
  intros Hk. unfold occupied.
  rewrite insert_take_drop by (by eapply lookup_lt_Some).
  rewrite <- (take_drop_middle ts k t Hk) at 3.
  rewrite !filter_app, !length_app, !filter_cons.
  destruct (isAvailable t) eqn:Et, (isAvailable t') eqn:Et';
    repeat case_decide; try congruence; simpl; lia.
Qed.

Lemma numbers_insert (ts : list Table) (k : nat) (t t' : Table) :
  ts !! k = Some t → number t' = number t →
  number <$> <[k := t']> ts = number <$> ts.
Proof.
  intros Hk Hn. rewrite list_fmap_insert, Hn.
  apply list_insert_id. by rewrite list_lookup_fmap, Hk.
Qed.

(** ** reserveTable *)

(** The scan reserves the first available table in vector order. *)
Lemma reserve_scan_Some (ts : list Table) :
  ∀ n ts', reserve_scan ts = Some (n, ts') →
    ∃ k t, ts !! k = Some t ∧ isAvailable t = true
           ∧ (∀ j t', j < k → ts !! j = Some t' → isAvailable t' = false)
           ∧ n = number t ∧ ts' = <[k := Table_reserve t]> ts.
Proof.
  induction ts as [|table ts IH]; intros n ts' Hscan; [done|].
  simpl in Hscan. unfold getIsAvailable, getNumber in Hscan.
  destruct (isAvailable table) eqn:Ea.
  - injection Hscan as <- <-. exists 0, table. repeat split; try done.
    intros j t' Hj; lia.
  - destruct (reserve_scan ts) as [[m ts'']|] eqn:Es; [|done].
    injection Hscan as <- <-.
    destruct (IH m ts'' eq_refl) as (k & t & Hk & Ht & Hbefore & -> & ->).
    exists (S k), t. repeat split; try done.
    intros [|j] t' Hj Hl; simpl in Hl; [congruence|].
    apply (Hbefore j); [lia|done].
Qed.

Lemma reserve_scan_None (ts : list Table) :
  reserve_scan ts = None ↔ Forall (λ t, isAvailable t = false) ts.
Proof.
  induction ts as [|table ts IH]; simpl; [done|].
  unfold getIsAvailable. destruct (isAvailable table) eqn:Ea.
  - split; [done|]. intros H. apply Forall_cons in H as [? _]. congruence.
  - destruct (reserve_scan ts) as [[m ts'']|].
    + split; [done|]. intros H. apply Forall_cons in H as [_ H].
      by apply IH in H.
    + split; [|done]. intros _. apply Forall_cons. split; [done|by apply IH].
Qed.

(** With every table taken, freeing one and scanning again hands out
    that very table and restores the vector. *)
Lemma reserve_scan_just_released (ts : list Table) :
  ∀ k t, Forall (λ t, isAvailable t = false) ts → ts !! k = Some t →
    reserve_scan (<[k := Table_release t]> ts) = Some (number t, ts).
Proof.
  induction ts as [|table ts IH]; intros k t Hall Hk; [done|].
  apply Forall_cons in Hall as [Ha Hall].
  destruct k as [|k]; simpl in *.
  - injection Hk as ->. unfold getNumber. simpl.
    destruct t as [num av]; simpl in *. by subst.
  - unfold getIsAvailable. rewrite Ha. by rewrite (IH k t).
Qed.

Lemma reserveTable_granted (h : Heap) (pointer : ptr) (r r' : Restaurant)
    (out : list Line) :
  reserveTable h pointer r = (true, r', out) →
  ∃ k t, tables r !! k = Some t ∧ isAvailable t = true
         ∧ (∀ j t', j < k → tables r !! j = Some t' → isAvailable t' = false)
         ∧ tables r' = <[k := Table_reserve t]> (tables r)
         ∧ activeCustomers r' = activeCustomers r ++ [pointer]
         ∧ waitlist r' = waitlist r
         ∧ out = [Reserved (number t) (getName (object h pointer))].
Proof.
  unfold reserveTable. intros H.
  destruct (reserve_scan (tables r)) as [[n ts]|] eqn:Es; [|done].
  injection H as <- <-.
  destruct (reserve_scan_Some _ _ _ Es) as (k & t & Hk & Ht & Hb & -> & ->).
  exists k, t. by repeat split.
Qed.

Lemma reserveTable_queued (h : Heap) (pointer : ptr) (r r' : Restaurant)
    (out : list Line) :
  reserveTable h pointer r = (false, r', out) →
  Forall (λ t, isAvailable t = false) (tables r)
  ∧ tables r' = tables r
  ∧ activeCustomers r' = activeCustomers r
  ∧ waitlist r' = waitlist r ++ [pointer]
  ∧ out = [NoTablesFree (getName (object h pointer))].
Proof.
  unfold reserveTable. intros H.
  destruct (reserve_scan (tables r)) as [[n ts]|] eqn:Es; [done|].
  injection H as <- <-. apply reserve_scan_None in Es. by repeat split.
Qed.

Lemma reserveTable_numbers (h : Heap) (pointer : ptr) (r : Restaurant) :
  numbers (reserveTable h pointer r).1.2 = numbers r.
Proof.
  destruct (reserveTable h pointer r) as [[[] r'] out] eqn:E; simpl.
  - apply reserveTable_granted in E as (k & t & Hk & _ & _ & Ht & _).
    unfold numbers. rewrite Ht. by eapply numbers_insert.
  - apply reserveTable_queued in E as (_ & Ht & _). unfold numbers. by rewrite Ht.
Qed.

(** ** notifyWaitlist *)

Lemma lock_live (h : Heap) (r : Restaurant) (w : ptr) :
  lock h r w = if live h r w then Some w else None.
Proof. unfold lock, live. by case_decide; case_bool_decide. Qed.

Lemma notifyWaitlist_empty (h : Heap) (r : Restaurant) :
  waitlist r = [] → notifyWaitlist h r = (r, []).
Proof. unfold notifyWaitlist. by intros ->. Qed.

Lemma notifyWaitlist_stale (h : Heap) (r : Restaurant) (w0 : ptr)
    (q : list ptr) :
  waitlist r = w0 :: q → live h r w0 = false → notifyWaitlist h r = (r, []).
Proof. unfold notifyWaitlist. intros -> Hl. by rewrite lock_live, Hl. Qed.

Lemma notifyWaitlist_live (h : Heap) (r : Restaurant) (w0 : ptr)
    (q : list ptr) (n : Z) (ts : list Table) :
  waitlist r = w0 :: q → live h r w0 = true →
  reserve_scan (tables r) = Some (n, ts) →
  notifyWaitlist h r
  = ({| tables := ts;
        activeCustomers := activeCustomers r ++ [w0];
        waitlist := compact_front w0 q |},
     [Reserved n (getName (object h w0))]).
Proof.
  unfold notifyWaitlist, reserveTable. intros Hw Hl Hs.
  rewrite Hw, lock_live, Hl, Hs. simpl.
  by rewrite removeElement_Front.
Qed.

Lemma notifyWaitlist_numbers (h : Heap) (r : Restaurant) :
  numbers (notifyWaitlist h r).1 = numbers r.
Proof.
  unfold notifyWaitlist. destruct (waitlist r) as [|w0 q]; [done|].
  destruct (lock h r w0) as [customer|]; [|done].
  pose proof (reserveTable_numbers h customer r) as Hn.
  by destruct (reserveTable h customer r) as [[b r1] out].
Qed.

(** ** releaseTable *)

Lemma releaseTable_body_miss (h : Heap) (n : Z) (r : Restaurant)
    (out : list Line) (i : nat) :
  (∀ t, tables r !! i = Some t → number t ≠ n) →
  releaseTable_body h n (r, out) i = (r, out).
Proof.
  intros Hmiss. unfold releaseTable_body.
  destruct (tables r !! i) as [t|] eqn:Ei; [|done].
  unfold getNumber. case_decide; [|done]. by destruct (Hmiss t).
Qed.

Lemma releaseTable_loop_miss (h : Heap) (n : Z) (r : Restaurant)
    (out : list Line) (positions : list nat) :
  (∀ i t, i ∈ positions → tables r !! i = Some t → number t ≠ n) →
  foldl (releaseTable_body h n) (r, out) positions = (r, out).
Proof.
  induction positions as [|i positions IH]; intros Hmiss; [done|].
  cbn [foldl]. rewrite releaseTable_body_miss.
  - apply IH. intros j t Hj. apply Hmiss. by right.
  - intros t. apply Hmiss. left.
Qed.

Lemma releaseTable_unknown (h : Heap) (n : Z) (r : Restaurant) :
  n ∉ numbers r → releaseTable h n r = (r, []).
Proof.
  intros Hn. unfold releaseTable. apply releaseTable_loop_miss.
  intros i t _ Hi <-. apply Hn. unfold numbers.
  apply list_elem_of_fmap. exists t. split; [done|].
  by eapply list_elem_of_lookup_2.
Qed.

Lemma numbers_hit_unique (r : Restaurant) (k i : nat) (t t' : Table) :
  NoDup (numbers r) → tables r !! k = Some t → tables r !! i = Some t' →
  number t' = number t → i = k.
Proof.
  intros Hnd Hk Hi Heq. unfold numbers in Hnd.
  eapply (NoDup_lookup _ i k (number t)); [done| |];
    rewrite list_lookup_fmap; [rewrite Hi|rewrite Hk]; simpl; congruence.
Qed.

(** With pairwise distinct table numbers the loop acts at one position
    only: where the number is found. *)
Lemma releaseTable_found (h : Heap) (r : Restaurant) (k : nat) (t : Table) :
  NoDup (numbers r) → tables r !! k = Some t →
  releaseTable h (number t) r
  = if isAvailable t then (r, [AlreadyFree (number t)])
    else let '(r2, out2) := notifyWaitlist h (freed k t r) in
         (r2, Released (number t) :: out2).
Proof.
  intros Hnd Hk. unfold releaseTable.
  pose proof (lookup_lt_Some _ _ _ Hk) as Hlt.
  replace (length (tables r)) with (k + S (length (tables r) - S k)) by lia.
  rewrite seq_app, foldl_app. cbn [seq foldl plus].
  rewrite releaseTable_loop_miss.
  2:{ intros i t' Hi Hl Heq. apply elem_of_seq in Hi.
      pose proof (numbers_hit_unique r k i t t' Hnd Hk Hl Heq). lia. }
  unfold releaseTable_body at 2. rewrite Hk. unfold getNumber, getIsAvailable.
  rewrite decide_True by done.
  destruct (isAvailable t) eqn:Ea; simpl.
  - apply releaseTable_loop_miss.
    intros i t' Hi Hl Heq. apply elem_of_seq in Hi.
    pose proof (numbers_hit_unique r k i t t' Hnd Hk Hl Heq). lia.
  - fold (freed k t r).
    pose proof (notifyWaitlist_numbers h (freed k t r)) as Hnum.
    destruct (notifyWaitlist h (freed k t r)) as [r2 out2]. simpl in Hnum.
    assert (Hnum1 : numbers (freed k t r) = numbers r).
    { unfold numbers, freed; simpl. by eapply numbers_insert. }
    apply releaseTable_loop_miss.
    intros i t' Hi Hl Heq. apply elem_of_seq in Hi.
    assert (Hk2 : ∃ t2, tables r2 !! k = Some t2 ∧ number t2 = number t).
    { assert (Hn : numbers r2 !! k = Some (number t)).
      { rewrite Hnum, Hnum1. unfold numbers. by rewrite list_lookup_fmap, Hk. }
      unfold numbers in Hn. rewrite list_lookup_fmap in Hn.
      destruct (tables r2 !! k) as [t2|]; [|done]. exists t2.
      split; [done|]. simpl in Hn. congruence. }
    destruct Hk2 as (t2 & Hk2 & Hn2).
    assert (i = k); [|lia].
    eapply (numbers_hit_unique r2 k i t2 t'); try done; [|congruence].
    by rewrite Hnum, Hnum1.
Qed.

(** ** Liveness *)

Lemma live_elem_of (h : Heap) (r : Restaurant) (p : ptr) :
  live h r p = true ↔ p ∈ external h ++ activeCustomers r.
Proof.
  unfold live, use_count. rewrite bool_decide_eq_true, list_elem_of_In.
  rewrite (count_occ_In Nat.eq_dec). lia.
Qed.

Lemma live_holder (h : Heap) (r : Restaurant) (p : ptr) :
  p ∈ activeCustomers r → live h r p = true.
Proof. intros Hp. apply live_elem_of, elem_of_app. by right. Qed.

Lemma live_same_holders (h : Heap) (r r' : Restaurant) (p : ptr) :
  activeCustomers r' = activeCustomers r → live h r' p = live h r p.
Proof. intros Heq. unfold live, use_count. by rewrite Heq. Qed.

Lemma live_new_holder (h : Heap) (r r' : Restaurant) (c p : ptr) :
  activeCustomers r' = activeCustomers r ++ [c] →
  live h r' p = true → live h r p = true ∨ p = c.
Proof.
  intros Heq Hl. apply live_elem_of in Hl. rewrite Heq in Hl.
  rewrite (assoc_L (++)) in Hl. apply elem_of_app in Hl as [Hl|Hl].
  - left. by apply live_elem_of.
  - right. by apply list_elem_of_singleton in Hl.
Qed.

(** ** Invariants of the reachable states *)

Lemma pool_numbered_NoDup (cap : Z) (r : Restaurant) :
  pool_numbered cap r → NoDup (numbers r).
Proof. intros ->. apply NoDup_seqZ. Qed.

Lemma pool_numbered_lookup (cap : Z) (r : Restaurant) (n : Z) :
  pool_numbered cap r → n ∈ numbers r →
  ∃ k t, tables r !! k = Some t ∧ number t = n.
Proof.
  intros _ Hn. unfold numbers in Hn.
  apply list_elem_of_fmap in Hn as (t & -> & Ht).
  apply list_elem_of_lookup in Ht as [k Hk]. by exists k, t.
Qed.

Lemma invariant_init (h : Heap) (cap : Z) : invariant cap (init h cap).
Proof.
  split; simpl.
  - apply Restaurant_new_numbers.
  - unfold holders_cover.
    rewrite occupied_all_free by apply Restaurant_new_free. simpl; lia.
  - by intros w0 q Hw.
Qed.

Lemma invariant_request (cap : Z) (w : World) (pointer : ptr) :
  admissible (Request pointer) w = true →
  invariant cap w → invariant cap (step (Request pointer) w).1.
Proof.
  intros Hadm [Hnum Hcov Hblk]. simpl in Hadm.
  pose proof (reserveTable_numbers (heap w) pointer (restaurant w)) as Hn.
  unfold step.
  destruct (reserveTable (heap w) pointer (restaurant w)) as [[[] r'] out] eqn:E;
    simpl in *.
  - apply reserveTable_granted in E
      as (k & t & Hk & Ht & _ & Hts & Hac & Hwl & _).
    split; simpl.
    + unfold pool_numbered. by rewrite Hn.
    + unfold holders_cover in *. rewrite Hts, Hac, length_app. simpl.
      pose proof (occupied_insert _ k t (Table_reserve t) Hk) as Ho.
      rewrite Ht in Ho. simpl in Ho. lia.
    + intros w0 q Hw Hlive. exfalso. rewrite Hwl in Hw.
      assert (Hold : live (heap w) (restaurant w) w0 = true).
      { destruct (live_new_holder _ _ _ _ _ Hac Hlive) as [?| ->]; done. }
      pose proof (Hblk w0 q Hw Hold) as Hall.
      rewrite Forall_lookup in Hall. specialize (Hall k t Hk). congruence.
  - apply reserveTable_queued in E as (Hall & Hts & Hac & Hwl & _).
    split; simpl.
    + unfold pool_numbered. by rewrite Hn.
    + unfold holders_cover in *. by rewrite Hts, Hac.
    + intros w0 q _ _. by rewrite Hts.
Qed.

(** What a release of an occupied table does to a state satisfying the
    invariant, by the state of the waitlist. *)
Lemma release_head_live (cap : Z) (h : Heap) (r : Restaurant) (k : nat)
    (t : Table) (w0 : ptr) (q : list ptr) :
  invariant cap {| heap := h; restaurant := r |} →
  tables r !! k = Some t → isAvailable t = false →
  waitlist r = w0 :: q → live h r w0 = true →
  releaseTable h (number t) r
  = ({| tables := tables r;
        activeCustomers := activeCustomers r ++ [w0];
        waitlist := compact_front w0 q |},
     [Released (number t); Reserved (number t) (getName (object h w0))]).
Proof.
  intros [Hnum _ Hblk] Hk Ht Hw Hlive. simpl in *.
  rewrite (releaseTable_found _ _ k t);
    [|by eapply pool_numbered_NoDup|done].
  rewrite Ht.
  rewrite (notifyWaitlist_live _ _ w0 q (number t) (tables r)); try done.
  simpl. apply reserve_scan_just_released; [|done]. by eapply Hblk.
Qed.

Lemma release_head_stale (h : Heap) (r : Restaurant) (k : nat) (t : Table)
    (w0 : ptr) (q : list ptr) :
  NoDup (numbers r) →
  tables r !! k = Some t → isAvailable t = false →
  waitlist r = w0 :: q → live h r w0 = false →
  releaseTable h (number t) r = (freed k t r, [Released (number t)]).
Proof.
  intros Hnd Hk Ht Hw Hlive.
  rewrite (releaseTable_found _ _ k t), Ht by done.
  by rewrite (notifyWaitlist_stale _ _ w0 q).
Qed.

Lemma release_no_waiting (h : Heap) (r : Restaurant) (k : nat) (t : Table) :
  NoDup (numbers r) →
  tables r !! k = Some t → isAvailable t = false →
  waitlist r = [] →
  releaseTable h (number t) r = (freed k t r, [Released (number t)]).
Proof.
  intros Hnd Hk Ht Hw.
  rewrite (releaseTable_found _ _ k t), Ht by done.
  by rewrite notifyWaitlist_empty.
Qed.

Lemma release_already_free (h : Heap) (r : Restaurant) (k : nat) (t : Table) :
  NoDup (numbers r) →
  tables r !! k = Some t → isAvailable t = true →
  releaseTable h (number t) r = (r, [AlreadyFree (number t)]).
Proof. intros Hnd Hk Ht. by rewrite (releaseTable_found _ _ k t), Ht. Qed.

Lemma invariant_freed (cap : Z) (h : Heap) (r : Restaurant) (k : nat)
    (t : Table) :
  tables r !! k = Some t → isAvailable t = false →
  (∀ w0 q, waitlist r = w0 :: q → live h r w0 = false) →
  invariant cap {| heap := h; restaurant := r |} →
  invariant cap {| heap := h; restaurant := freed k t r |}.
Proof.
  intros Hk Ht Hstale [Hnum Hcov _]; simpl in *. split; simpl.
  - unfold pool_numbered, numbers, freed in *; simpl.
    by rewrite (numbers_insert _ k t).
  - unfold holders_cover, freed in *; simpl.
    pose proof (occupied_insert _ k t (Table_release t) Hk) as Ho.
    rewrite Ht in Ho. simpl in Ho. lia.
  - intros w0 q Hw Hlive. simpl in Hw.
    rewrite (live_same_holders h r) in Hlive by done.
    by rewrite (Hstale w0 q Hw) in Hlive.
Qed.

Lemma releaseTable_case (cap : Z) (h : Heap) (r : Restaurant) (n : Z) :
  invariant cap {| heap := h; restaurant := r |} →
  release_case h r n (releaseTable h n r).
Proof.
  intros Hinv. pose proof Hinv as [Hnum _ _]; simpl in Hnum.
  pose proof (pool_numbered_NoDup _ _ Hnum) as Hnd.
  destruct (decide (n ∈ numbers r)) as [Hin|Hout].
  2:{ rewrite releaseTable_unknown by done. by constructor. }
  destruct (pool_numbered_lookup _ _ _ Hnum Hin) as (k & t & Hk & <-).
  destruct (isAvailable t) eqn:Ht.
  { rewrite (release_already_free _ _ k t) by done. by econstructor. }
  destruct (waitlist r) as [|w0 q] eqn:Hw.
  { rewrite (release_no_waiting _ _ k t) by done.
    apply release_idle; try done. intros ? ?. by rewrite Hw. }
  destruct (live h r w0) eqn:Hlive.
  - rewrite (release_head_live cap h r k t w0 q) by done.
    by eapply release_regrant.
  - rewrite (release_head_stale _ _ k t w0 q) by done.
    apply release_idle; try done.
    intros ? ? Heq. rewrite Hw in Heq. by injection Heq as <- <-.
Qed.

Lemma invariant_release (cap : Z) (w : World) (n : Z) :
  invariant cap w → invariant cap (step (Release n) w).1.
Proof.
  intros Hinv. destruct w as [h r]; simpl.
  destruct (releaseTable_case cap h r n Hinv)
    as [Hout|k t Hk Hn Ht|k t Hk Hn Ht Hstale|k t w0 q Hk Hn Ht Hw Hlive];
    simpl; try done.
  - by apply invariant_freed.
  - destruct Hinv as [Hnum Hcov Hblk]; simpl in *. split; simpl.
    + done.
    + unfold holders_cover in *. simpl. rewrite length_app. lia.
    + intros _ _ _ _. by eapply Hblk.
Qed.

Lemma invariant_step (cap : Z) (a : Action) (w : World) :
  admissible a w = true → invariant cap w → invariant cap (step a w).1.
Proof.
  destruct a as [pointer|n| |held]; intros Hadm Hinv.
  - by apply invariant_request.
  - by apply invariant_release.
  - by destruct w.
  - destruct Hinv as [Hnum Hcov Hblk]. split; simpl; try done.
    intros w0 q Hw Hlive. apply (Hblk w0 q Hw).
    simpl in Hadm. rewrite forallb_forall in Hadm.
    specialize (Hadm w0). rewrite Hw, Hlive in Hadm. simpl in Hadm.
    apply Hadm. by left.
Qed.

Lemma run_invariant (ok : Action → World → bool) (P : World → Prop) :
  (∀ a w, ok a w = true → P w → P (step a w).1) →
  ∀ tr w, P w → trace_ok ok tr w = true → P (run tr w).1.
Proof.
  intros Hstep. induction tr as [|a tr IH]; intros w Hw Hadm; [done|].
  simpl in Hadm. apply andb_prop in Hadm as [Ha Htr].
  simpl. specialize (IH (step a w).1 (Hstep a w Ha Hw) Htr).
  destruct (step a w) as [w1 out1]. simpl in *.
  by destruct (run tr w1) as [w2 out2].
Qed.

Lemma reachable_invariant (cap : Z) (w : World) :
  reachable cap w → invariant cap w.
Proof.
  intros (h & tr & Hadm & <-).
  apply (run_invariant admissible (invariant cap));
    [|apply invariant_init|done].
  intros a w'. apply invariant_step.
Qed.

Lemma reachable_run (h : Heap) (cap : Z) (tr : list Action) :
  admissible_trace tr (init h cap) = true →
  reachable cap (run tr (init h cap)).1.
Proof. intros Hadm. by exists h, tr. Qed.

(** ** Filling the restaurant *)

Lemma reserve_scan_after_occupied (occ : list Table) (t : Table)
    (free : list Table) :
  Forall (λ t, isAvailable t = false) occ → isAvailable t = true →
  reserve_scan (occ ++ t :: free)
  = Some (number t, occ ++ Table_reserve t :: free).
Proof.
  intros Hocc Ht. induction Hocc as [|o occ Ho _ IH]; simpl.
  - unfold getIsAvailable. by rewrite Ht.
  - unfold getIsAvailable. by rewrite Ho, IH.
Qed.

Lemma reserveAll_app (h : Heap) (cs1 cs2 : list ptr) (r : Restaurant) :
  reserveAll h (cs1 ++ cs2) r
  = let '(res1, r1) := reserveAll h cs1 r in
    let '(res2, r2) := reserveAll h cs2 r1 in
    (res1 ++ res2, r2).
Proof.
  revert r. induction cs1 as [|c cs1 IH]; intros r; simpl.
  - by destruct (reserveAll h cs2 r).
  - destruct (reserveTable h c r) as [[b r1] out]. rewrite IH.
    destruct (reserveAll h cs1 r1) as [res1 r1'].
    by destruct (reserveAll h cs2 r1') as [res2 r2].
Qed.

Lemma reserveAll_fill (h : Heap) (free : list Table) :
  ∀ (occ : list Table) (ac wl cs : list ptr),
    length cs = length free →
    Forall (λ t, isAvailable t = false) occ →
    Forall (λ t, isAvailable t = true) free →
    reserveAll h cs {| tables := occ ++ free;
                       activeCustomers := ac; waitlist := wl |}
    = (zip_with (λ t c, (true, [Reserved (number t) (getName (object h c))]))
                free cs,
       {| tables := occ ++ (Table_reserve <$> free);
          activeCustomers := ac ++ cs; waitlist := wl |}).
Proof.
  induction free as [|t free IH]; intros occ ac wl cs Hlen Hocc Hfree.
  - destruct cs; [|done]. simpl. by rewrite !app_nil_r.
  - destruct cs as [|c cs]; [done|]. simpl in Hlen.
    apply Forall_cons in Hfree as [Ht Hfree].
    cbn [reserveAll]. unfold reserveTable at 1. cbn [tables].
    rewrite reserve_scan_after_occupied by done.
    cbn [activeCustomers waitlist].
    replace (occ ++ Table_reserve t :: free)
      with ((occ ++ [Table_reserve t]) ++ free)
      by (by rewrite <- (assoc_L (++))).
    rewrite (IH (occ ++ [Table_reserve t]) (ac ++ [c]) wl cs); try done.
    + simpl. by rewrite <- !(assoc_L (++)).
    + lia.
    + apply Forall_app. split; [done|]. by apply Forall_singleton.
Qed.

(** ** Further facts about single calls *)

Lemma pool_numbered_at (cap : Z) (r : Restaurant) (k : nat) (t : Table) :
  pool_numbered cap r → tables r !! k = Some t → number t = (1 + Z.of_nat k)%Z.
Proof.
  intros Hnum Hk.
  assert (Hn : numbers r !! k = Some (number t)).
  { unfold numbers. by rewrite list_lookup_fmap, Hk. }
  rewrite Hnum in Hn. by apply lookup_seqZ in Hn as [-> _].
Qed.

Lemma notifyWaitlist_holders (h : Heap) (r : Restaurant) :
  activeCustomers r `prefix_of` activeCustomers (notifyWaitlist h r).1.
Proof.
  unfold notifyWaitlist. destruct (waitlist r) as [|w0 q]; [done|].
  destruct (lock h r w0) as [customer|]; [|done].
  unfold reserveTable. destruct (reserve_scan (tables r)) as [[n ts]|]; simpl.
  - by apply prefix_app_r.
  - done.
Qed.

Lemma unlisted_step (cap : Z) (a : Action) (w : World) :
  admissible a w && unlisted a w = true →
  invariant cap w
  ∧ NoDup (activeCustomers (restaurant w) ++ waitlist (restaurant w)) →
  invariant cap (step a w).1
  ∧ NoDup (activeCustomers (restaurant (step a w).1)
           ++ waitlist (restaurant (step a w).1)).
Proof.
  intros Hok [Hinv Hnd]. apply andb_prop in Hok as [Hadm Hun].
  split; [by apply invariant_step|].
  destruct a as [pointer|n| |held]; destruct w as [h r]; simpl in *;
    try done.
  - apply bool_decide_eq_true in Hun.
    destruct (reserveTable h pointer r) as [[[] r'] out] eqn:E; simpl.
    + apply reserveTable_granted in E as (_ & _ & _ & _ & _ & _ & -> & -> & _).
      rewrite <- (assoc_L (++)). simpl.
      apply NoDup_app in Hnd as (Hac & Hdisj & Hwl).
      apply NoDup_app. split_and!; try done.
      * intros x Hx [->|Hin]%elem_of_cons.
        -- apply Hun, elem_of_app. by left.
        -- by apply (Hdisj x).
      * apply NoDup_cons. split; [|done].
        intros Hin. apply Hun, elem_of_app. by right.
    + apply reserveTable_queued in E as (_ & _ & -> & -> & _).
      rewrite (assoc_L (++)). apply NoDup_app. split_and!; try done.
      * intros x Hx ->%list_elem_of_singleton. done.
      * apply NoDup_singleton.
  - destruct (releaseTable_case cap h r n Hinv)
      as [Hout|k t Hk Hn Ht|k t Hk Hn Ht Hstale|k t w0 q Hk Hn Ht Hw Hlive];
      simpl; try done.
    rewrite Hw in Hnd. rewrite compact_front_fresh.
    + by rewrite <- (assoc_L (++)).
    + by apply NoDup_app in Hnd as (_ & _ & Hwl).
Qed.

Lemma printWaitlist_names (h : Heap) (r : Restaurant) (wl : list ptr) :
  omap (λ customer,
          match lock h r customer with
          | Some customerPtr => Some (Waiting (getName (object h customerPtr)))
          | None => None
          end) wl
  = (λ c, Waiting (getName (object h c)))
      <$> filter (λ c, live h r c = true) wl.
Proof.
  induction wl as [|c wl IH]; [done|].
  rewrite filter_cons. cbn [omap list_omap]. fold (@omap list _).
  rewrite lock_live. destruct (live h r c) eqn:E.
  - rewrite decide_True by done. rewrite fmap_cons. f_equal. apply IH.
  - rewrite decide_False by done. apply IH.
Qed.

(** * The claims *)

(** C1.  In every reachable state [reserveTable] scans the tables in
    number order and reserves the first, lowest-numbered, available one;
    and on a fresh restaurant of capacity [cap] the first [cap] requests
    are granted tables [1], [2], ..., [cap] in that order, while the next
    request is refused and its customer becomes the waitlist's only (tail)
    entry. *)
Theorem reserveTable_first_available :
  (∀ (cap : Z) (w : World) (pointer : ptr),
     reachable cap w → request_outcome (heap w) pointer (restaurant w))
  ∧ (∀ (h : Heap) (cap : Z) (cs : list ptr) (last : ptr),
       length cs = Z.to_nat cap →
       reserveAll h (cs ++ [last]) (Restaurant_new cap)
       = (zip_with (λ n c, (true, [Reserved n (getName (object h c))]))
                   (seqZ 1 cap) cs
          ++ [(false, [NoTablesFree (getName (object h last))])],
          {| tables := Table_reserve <$> tables (Restaurant_new cap);
             activeCustomers := cs;
             waitlist := [last] |})).
Proof.
  split.
  - intros cap [h r] pointer Hreach; simpl.
    apply reachable_invariant in Hreach as [Hnum _ _]; simpl in Hnum.
    unfold request_outcome.
    destruct (reserveTable h pointer r) as [[[] r'] out] eqn:E.
    + apply reserveTable_granted in E
        as (k & t & Hk & Ht & Hbefore & Hts & Hac & Hwl & Hout).
      exists k, t. repeat split; try done.
      intros t' Hin Ht'. apply list_elem_of_lookup in Hin as [j Hj].
      rewrite (pool_numbered_at cap r k t), (pool_numbered_at cap r j t')
        by done.
      destruct (decide (j < k)) as [Hlt|Hge]; [|lia].
      specialize (Hbefore j t' Hlt Hj). congruence.
    + by apply reserveTable_queued in E.
  - intros h cap cs last Hlen.
    rewrite reserveAll_app.
    pose proof (reserveAll_fill h (Table_new <$> seqZ 1 cap) [] [] [] cs) as Hfill.
    rewrite length_fmap, length_seqZ in Hfill.
    specialize (Hfill Hlen (Forall_nil_2 _)).
    rewrite <- Restaurant_new_tables in Hfill at 1.
    specialize (Hfill (Restaurant_new_free cap)).
    simpl in Hfill. rewrite Restaurant_new_tables.
    change (Restaurant_new cap)
      with {| tables := tables (Restaurant_new cap);
              activeCustomers := []; waitlist := [] |}.
    rewrite Restaurant_new_tables, Hfill.
    rewrite zip_with_fmap_l. cbn [reserveAll].
    unfold reserveTable. cbn [tables activeCustomers waitlist].
    assert (Hfull : reserve_scan (Table_reserve <$> (Table_new <$> seqZ 1 cap))
                    = None).
    { apply reserve_scan_None, Forall_fmap, Forall_true. done. }
    by rewrite Hfull.
Qed.

Lemma reserveTable_first_available_witness :
  request_outcome main_heap 2
    (restaurant (run [Request 1] (init main_heap 2)).1)
  ∧ reserveAll main_heap ([1; 2] ++ [3]) (Restaurant_new 2)
    = ([(true, [Reserved 1 "Morgan"]); (true, [Reserved 2 "Lottie"]);
        (false, [NoTablesFree "Nathan"])],
       {| tables := [{| number := 1; isAvailable := false |};
                     {| number := 2; isAvailable := false |}];
          activeCustomers := [1; 2];
          waitlist := [3] |}).
Proof.
  split.
  - apply (proj1 reserveTable_first_available 2%Z
             (run [Request 1] (init main_heap 2)).1 2).
    apply reachable_run. reflexivity.
  - apply (proj2 reserveTable_first_available main_heap 2%Z [1; 2] 3).
    reflexivity.
Defined.

(** C2, refuted as stated.  One table, one customer: Morgan is given
    table 1 and is the only active customer; after [releaseTable(1)] the
    table is free and Morgan is still listed in [activeCustomers]. *)
Lemma release_leaves_holder_listed :
  let w := (run [Request 1] (init main_heap 1)).1 in
  let w' := (step (Release 1) w).1 in
  tables (restaurant w) = [{| number := 1; isAvailable := false |}]
  ∧ activeCustomers (restaurant w) = [1]
  ∧ tables (restaurant w') = [{| number := 1; isAvailable := true |}]
  ∧ 1 ∈ activeCustomers (restaurant w').
Proof. vm_compute. repeat split. left. Qed.

(** C2, amended.  Releasing an occupied table of the pool marks that table
    free, leaves [activeCustomers] as it is (nobody is removed, so every
    customer listed before the call is still listed after it), and then
    runs [notifyWaitlist] on the resulting state. *)
Theorem releaseTable_occupied (cap : Z) (w : World) (k : nat) (t : Table) :
  reachable cap w →
  tables (restaurant w) !! k = Some t → isAvailable t = false →
  ∃ r1,
    tables r1 = <[k := Table_release t]> (tables (restaurant w))
    ∧ activeCustomers r1 = activeCustomers (restaurant w)
    ∧ waitlist r1 = waitlist (restaurant w)
    ∧ releaseTable (heap w) (number t) (restaurant w)
      = (let '(r2, out2) := notifyWaitlist (heap w) r1 in
         (r2, Released (number t) :: out2))
    ∧ activeCustomers (restaurant w)
        `prefix_of`
      activeCustomers (releaseTable (heap w) (number t) (restaurant w)).1.
Proof.
  intros Hreach Hk Ht. destruct w as [h r]; simpl in *.
  apply reachable_invariant in Hreach as [Hnum _ _]; simpl in Hnum.
  pose proof (pool_numbered_NoDup _ _ Hnum) as Hnd.
  exists (freed k t r). repeat split; try done.
  - by rewrite (releaseTable_found _ _ k t), Ht.
  - rewrite (releaseTable_found _ _ k t), Ht by done.
    pose proof (notifyWaitlist_holders h (freed k t r)) as Hpre.
    by destruct (notifyWaitlist h (freed k t r)) as [r2 out2].
Qed.

Lemma releaseTable_occupied_witness :
  ∃ r1,
    tables r1 = [{| number := 1; isAvailable := true |}]
    ∧ activeCustomers r1 = [1]
    ∧ waitlist r1 = []
    ∧ releaseTable main_heap 1
        (restaurant (run [Request 1] (init main_heap 1)).1)
      = (let '(r2, out2) := notifyWaitlist main_heap r1 in
         (r2, Released 1 :: out2))
    ∧ [1] `prefix_of`
      activeCustomers
        (releaseTable main_heap 1
           (restaurant (run [Request 1] (init main_heap 1)).1)).1.
Proof.
  apply (releaseTable_occupied 1 (run [Request 1] (init main_heap 1)).1 0
           {| number := 1; isAvailable := false |}).
  - apply reachable_run. reflexivity.
  - reflexivity.
  - reflexivity.
Defined.

(** C3, refuted as stated.  With one table: Morgan reserves it, it is
    released, Lottie reserves it.  Both remain in [activeCustomers], which
    is now longer than [tables]. *)
Lemma holders_exceed_pool :
  ∃ w, reachable 1 w
       ∧ length (tables (restaurant w))
         < length (activeCustomers (restaurant w)).
Proof.
  exists (run [Request 1; Release 1; Request 2] (init main_heap 1)).1.
  split.
  - apply reachable_run. reflexivity.
  - vm_compute. lia.
Qed.

(** C3, amended.  In every reachable state the pool has its constructed
    size, and the number of occupied tables is at most the pool size and at
    most the number of customers listed in [activeCustomers]. *)
Theorem occupied_bounded (cap : Z) (w : World) :
  reachable cap w →
  length (tables (restaurant w)) = Z.to_nat cap
  ∧ occupied (tables (restaurant w)) ≤ length (tables (restaurant w))
  ∧ occupied (tables (restaurant w)) ≤ length (activeCustomers (restaurant w)).
Proof.
  intros Hreach. apply reachable_invariant in Hreach as [Hnum Hcov _].
  repeat split.
  - unfold pool_numbered, numbers in Hnum.
    by rewrite <- (length_fmap number), Hnum, length_seqZ.
  - apply occupied_le_length.
  - exact Hcov.
Qed.

Lemma occupied_bounded_witness :
  let w := (run [Request 1; Release 1; Request 2] (init main_heap 1)).1 in
  length (tables (restaurant w)) = Z.to_nat 1
  ∧ occupied (tables (restaurant w)) ≤ length (tables (restaurant w))
  ∧ occupied (tables (restaurant w)) ≤ length (activeCustomers (restaurant w)).
Proof.
  apply (occupied_bounded 1
           (run [Request 1; Release 1; Request 2] (init main_heap 1)).1).
  apply reachable_run. reflexivity.
Defined.

(** C4, refuted as stated.  With one table: Morgan holds it, Lottie waits,
    then the application drops its last pointer to Lottie.  The waitlist
    head is now expired; [releaseTable(1)] leaves it where it is. *)
Lemma stale_head_stays_queued :
  let tr := [Request 1; Request 2; Application [1; 3; 4]] in
  let w := (run tr (init main_heap 1)).1 in
  admissible_trace tr (init main_heap 1) = true
  ∧ waitlist (restaurant w) = [2]
  ∧ live (heap w) (restaurant w) 2 = false
  ∧ (step (Release 1) w).2 = [Released 1]
  ∧ waitlist (restaurant (step (Release 1) w).1) = [2].
Proof. vm_compute. done. Qed.

(** C4, amended.  When an occupied table is released while the waitlist is
    non-empty and its head has expired, [notifyWaitlist] does nothing: the
    expired entry stays at the head of the waitlist, no later entry is
    looked at, nobody is granted a table (the released table stays free and
    [activeCustomers] is unchanged), the call returns normally having
    printed only the release, and the state invariants carry over, as do
    the size bound on [activeCustomers] and the absence of duplicates
    whenever they held before. *)
Theorem release_with_stale_head (cap : Z) (w : World) (k : nat) (t : Table)
    (w0 : ptr) (q : list ptr) :
  reachable cap w →
  tables (restaurant w) !! k = Some t → isAvailable t = false →
  waitlist (restaurant w) = w0 :: q →
  live (heap w) (restaurant w) w0 = false →
  let r := restaurant w in
  let '(r', out) := releaseTable (heap w) (number t) r in
  out = [Released (number t)]
  ∧ tables r' = <[k := Table_release t]> (tables r)
  ∧ activeCustomers r' = activeCustomers r
  ∧ waitlist r' = w0 :: q
  ∧ invariant cap {| heap := heap w; restaurant := r' |}
  ∧ (length (activeCustomers r) ≤ length (tables r) →
     length (activeCustomers r') ≤ length (tables r'))
  ∧ (NoDup (activeCustomers r ++ waitlist r) →
     NoDup (activeCustomers r' ++ waitlist r')).
Proof.
  intros Hreach Hk Ht Hw Hlive. destruct w as [h r]; simpl in *.
  apply reachable_invariant in Hreach as Hinv.
  pose proof (pool_numbered_NoDup _ _ (inv_numbered _ _ Hinv)) as Hnd.
  simpl in Hnd.
  rewrite (release_head_stale h r k t w0 q) by done.
  split_and!; try done.
  - apply invariant_freed; try done.
    intros ? ? Heq. rewrite Hw in Heq. by injection Heq as <- <-.
  - simpl. by rewrite length_insert.
Qed.

Lemma release_with_stale_head_witness :
  let w := (run [Request 1; Request 2; Application [1; 3; 4]]
                (init main_heap 1)).1 in
  let r := restaurant w in
  let '(r', out) := releaseTable (heap w) 1 r in
  out = [Released 1]
  ∧ tables r' = <[0 := {| number := 1; isAvailable := true |}]> (tables r)
  ∧ activeCustomers r' = activeCustomers r
  ∧ waitlist r' = [2]
  ∧ invariant 1 {| heap := heap w; restaurant := r' |}
  ∧ (length (activeCustomers r) ≤ length (tables r) →
     length (activeCustomers r') ≤ length (tables r'))
  ∧ (NoDup (activeCustomers r ++ waitlist r) →
     NoDup (activeCustomers r' ++ waitlist r')).
Proof.
  apply (release_with_stale_head 1
           (run [Request 1; Request 2; Application [1; 3; 4]]
                (init main_heap 1)).1
           0 {| number := 1; isAvailable := false |} 2 []).
  - apply reachable_run. reflexivity.
  - reflexivity.
  - reflexivity.
  - reflexivity.
  - reflexivity.
Defined.

(** C5.  When an occupied table is released while the waitlist is
    non-empty and its head is still alive, the nested [reserveTable] call
    succeeds and hands the head customer the very table just released,
    before [releaseTable] returns; the customer is appended to
    [activeCustomers] and its head entry leaves the waitlist (what remains
    is taken from the entries behind it, and is exactly those entries when
    the waitlist had no duplicates). *)
Theorem release_grants_head (cap : Z) (w : World) (k : nat) (t : Table)
    (w0 : ptr) (q : list ptr) :
  reachable cap w →
  tables (restaurant w) !! k = Some t → isAvailable t = false →
  waitlist (restaurant w) = w0 :: q →
  live (heap w) (restaurant w) w0 = true →
  let r := restaurant w in
  let '(r', out) := releaseTable (heap w) (number t) r in
  (reserveTable (heap w) w0 (freed k t r)).1.1 = true
  ∧ out = [Released (number t);
           Reserved (number t) (getName (object (heap w) w0))]
  ∧ tables r' !! k = Some t
  ∧ activeCustomers r' = activeCustomers r ++ [w0]
  ∧ waitlist r' `sublist_of` q
  ∧ length (waitlist r') < length (waitlist r)
  ∧ (NoDup (waitlist r) → waitlist r' = q).
Proof.
  intros Hreach Hk Ht Hw Hlive. destruct w as [h r]; simpl in *.
  apply reachable_invariant in Hreach as Hinv.
  rewrite (release_head_live cap h r k t w0 q) by done.
  simpl. split_and!; try done.
  - unfold reserveTable, freed; simpl.
    rewrite (reserve_scan_just_released (tables r) k t); try done.
    by eapply (inv_blocked _ _ Hinv).
  - apply compact_front_sublist.
  - rewrite Hw. simpl. pose proof (compact_front_length w0 q). lia.
  - rewrite Hw. apply compact_front_fresh.
Qed.

Lemma release_grants_head_witness :
  let w := (run [Request 1; Request 2; Request 3; Request 4]
                (init main_heap 2)).1 in
  let r := restaurant w in
  let '(r', out) := releaseTable (heap w) 1 r in
  (reserveTable (heap w) 3
     (freed 0 {| number := 1; isAvailable := false |} r)).1.1 = true
  ∧ out = [Released 1; Reserved 1 "Nathan"]
  ∧ tables r' !! 0 = Some {| number := 1; isAvailable := false |}
  ∧ activeCustomers r' = activeCustomers r ++ [3]
  ∧ waitlist r' `sublist_of` [4]
  ∧ length (waitlist r') < length (waitlist r)
  ∧ (NoDup (waitlist r) → waitlist r' = [4]).
Proof.
  apply (release_grants_head 2
           (run [Request 1; Request 2; Request 3; Request 4]
                (init main_heap 2)).1
           0 {| number := 1; isAvailable := false |} 3 [4]).
  - apply reachable_run. reflexivity.
  - reflexivity.
  - reflexivity.
  - reflexivity.
  - reflexivity.
Defined.

(** C6, refuted as stated.  [releaseTable(7)] on a restaurant whose tables
    are 1 and 2 returns normally: nothing is printed and nothing changes. *)
Lemma release_unknown_returns_normally :
  releaseTable main_heap 7 (Restaurant_new 2) = (Restaurant_new 2, []).
Proof. reflexivity. Qed.

(** C6, amended.  For a number carried by no table of the pool,
    [releaseTable] reports nothing and raises nothing: it returns with the
    state unchanged and without printing, so in particular without calling
    [notifyWaitlist]. *)
Theorem release_unknown_is_silent (w : World) (tableNumber : Z) :
  tableNumber ∉ numbers (restaurant w) →
  step (Release tableNumber) w = (w, []).
Proof.
  intros Hn. destruct w as [h r]; simpl in *.
  by rewrite releaseTable_unknown.
Qed.

Lemma release_unknown_is_silent_witness :
  step (Release 7) (init main_heap 2) = (init main_heap 2, []).
Proof.
  apply (release_unknown_is_silent (init main_heap 2) 7).
  apply (bool_decide_unpack _). vm_compute. exact I.
Defined.

(** C7, refuted as stated.  [main.cpp]'s scenario, with [releaseTable(1)]
    called twice in a row: the first call hands table 1 to Nathan, so the
    second finds it occupied, releases it again and hands it to Dai.  The
    second call neither reports "already free" nor leaves the state
    alone. *)
Lemma second_release_succeeds_again :
  let w := (run [Request 1; Request 2; Request 3; Request 4]
                (init main_heap 2)).1 in
  let '(w1, out1) := step (Release 1) w in
  let '(w2, out2) := step (Release 1) w1 in
  out1 = [Released 1; Reserved 1 "Nathan"]
  ∧ out2 = [Released 1; Reserved 1 "Dai"]
  ∧ waitlist (restaurant w1) = [4]
  ∧ waitlist (restaurant w2) = [].
Proof. vm_compute. done. Qed.

(** C7, amended.  For an occupied table of the pool whose release hands
    the table to nobody (the waitlist is empty, or its head has expired),
    [releaseTable] called twice in a row first releases the table and then
    reports that it was already free; the second call changes nothing and
    does not reach [notifyWaitlist]. *)
Theorem release_twice (cap : Z) (w : World) (k : nat) (t : Table) :
  reachable cap w →
  tables (restaurant w) !! k = Some t → isAvailable t = false →
  (waitlist (restaurant w) = []
   ∨ ∃ w0 q, waitlist (restaurant w) = w0 :: q
             ∧ live (heap w) (restaurant w) w0 = false) →
  let '(w1, out1) := step (Release (number t)) w in
  let '(w2, out2) := step (Release (number t)) w1 in
  out1 = [Released (number t)]
  ∧ tables (restaurant w1) !! k = Some (Table_release t)
  ∧ out2 = [AlreadyFree (number t)]
  ∧ w2 = w1.
Proof.
  intros Hreach Hk Ht Hq. destruct w as [h r]; simpl in *.
  apply reachable_invariant in Hreach as [Hnum _ _]; simpl in Hnum.
  pose proof (pool_numbered_NoDup _ _ Hnum) as Hnd.
  assert (Hfirst : releaseTable h (number t) r
                   = (freed k t r, [Released (number t)])).
  { destruct Hq as [Hq|(w0 & q & Hq & Hlive)].
    - by apply release_no_waiting.
    - by eapply release_head_stale. }
  rewrite Hfirst. simpl.
  assert (Hk1 : tables (freed k t r) !! k = Some (Table_release t)).
  { simpl. apply list_lookup_insert_eq. by eapply lookup_lt_Some. }
  change (number t) with (number (Table_release t)).
  rewrite (release_already_free h (freed k t r) k (Table_release t)); try done.
  unfold numbers, freed; simpl. by rewrite (numbers_insert _ k t).
Qed.

Lemma release_twice_witness :
  let w := (run [Request 1; Request 2] (init main_heap 2)).1 in
  let '(w1, out1) := step (Release 1) w in
  let '(w2, out2) := step (Release 1) w1 in
  out1 = [Released 1]
  ∧ tables (restaurant w1) !! 0 = Some {| number := 1; isAvailable := true |}
  ∧ out2 = [AlreadyFree 1]
  ∧ w2 = w1.
Proof.
  apply (release_twice 2 (run [Request 1; Request 2] (init main_heap 2)).1
           0 {| number := 1; isAvailable := false |}).
  - apply reachable_run. reflexivity.
  - reflexivity.
  - reflexivity.
  - left. reflexivity.
Defined.

(** C8, refuted as stated.  A negative table count is not rejected: the
    constructor's loop body never runs and an empty restaurant is built. *)
Lemma negative_capacity_accepted :
  Restaurant_new (-1)
  = {| tables := []; activeCustomers := []; waitlist := [] |}.
Proof. reflexivity. Qed.

(** C8, amended.  [Restaurant(c)] builds the tables numbered [1 .. c], all
    free ([c] of them when [c >= 0]), with [activeCustomers] and [waitlist]
    empty.  No count is rejected: for [c <= 0], negative counts included,
    the result is the empty restaurant, in which every request, in every
    reachable state, is put on the waitlist. *)
Theorem Restaurant_new_any_count (c : Z) :
  tables (Restaurant_new c) = Table_new <$> seqZ 1 c
  ∧ length (tables (Restaurant_new c)) = Z.to_nat c
  ∧ activeCustomers (Restaurant_new c) = []
  ∧ waitlist (Restaurant_new c) = []
  ∧ ((c ≤ 0)%Z →
     Restaurant_new c = Restaurant_new 0
     ∧ ∀ (w : World) (pointer : ptr), reachable c w →
         let '(b, r', out) := reserveTable (heap w) pointer (restaurant w) in
         b = false ∧ waitlist r' = waitlist (restaurant w) ++ [pointer]).
Proof.
  split_and!; try done.
  - apply Restaurant_new_tables.
  - by rewrite Restaurant_new_tables, length_fmap, length_seqZ.
  - intros Hc. split.
    + unfold Restaurant_new. f_equal.
      rewrite !Restaurant_loop_spec by lia. by rewrite seqZ_nil by lia.
    + intros [h r] pointer Hreach; simpl.
      apply reachable_invariant in Hreach as [Hnum _ _]; simpl in Hnum.
      assert (Hts : tables r = []).
      { apply (fmap_nil_inv number). fold (numbers r). rewrite Hnum.
        apply seqZ_nil. lia. }
      unfold reserveTable. by rewrite Hts.
Qed.

Lemma Restaurant_new_any_count_witness :
  Restaurant_new (-3) = Restaurant_new 0
  ∧ (let '(b, r', out) :=
       reserveTable main_heap 1 (restaurant (init main_heap (-3))) in
     b = false
     ∧ waitlist r' = waitlist (restaurant (init main_heap (-3))) ++ [1]).
Proof.
  destruct (Restaurant_new_any_count (-3)) as (_ & _ & _ & _ & Hempty).
  destruct Hempty as [Hsame Hqueues]; [lia|].
  split; [exact Hsame|].
  apply (Hqueues (init main_heap (-3)) 1).
  apply (reachable_run main_heap (-3) []). reflexivity.
Defined.

(** C9, refuted as stated.  With one table, Morgan asks twice: the first
    request makes Morgan an active customer, the second puts the same
    customer on the waitlist. *)
Lemma customer_active_and_waiting :
  ∃ w, reachable 1 w
       ∧ 1 ∈ activeCustomers (restaurant w)
       ∧ 1 ∈ waitlist (restaurant w).
Proof.
  exists (run [Request 1; Request 1] (init main_heap 1)).1. split.
  - apply reachable_run. reflexivity.
  - vm_compute. split; left.
Qed.

(** C9, amended.  In every state reached by calls in which each request
    is made for a customer that is, at that moment, neither active nor
    waiting, every customer appears at most once in [activeCustomers] and
    [waitlist] taken together. *)
Theorem first_requests_listed_once (h : Heap) (cap : Z) (tr : list Action) :
  first_requests tr (init h cap) = true →
  NoDup (activeCustomers (restaurant (run tr (init h cap)).1)
         ++ waitlist (restaurant (run tr (init h cap)).1)).
Proof.
  intros Hok.
  apply (run_invariant (λ a w, admissible a w && unlisted a w)
           (λ w, invariant cap w
                 ∧ NoDup (activeCustomers (restaurant w)
                          ++ waitlist (restaurant w)))
           (unlisted_step cap) tr (init h cap)); [|done].
  split; [apply invariant_init|]. simpl. apply NoDup_nil_2.
Qed.

Lemma first_requests_listed_once_witness :
  NoDup (activeCustomers (restaurant (run main_trace (init main_heap 2)).1)
         ++ waitlist (restaurant (run main_trace (init main_heap 2)).1)).
Proof.
  apply (first_requests_listed_once main_heap 2 main_trace). reflexivity.
Defined.

(** C10.  [printWaitlist] prints, after its heading, the names of the
    waitlist's entries in waitlist order, leaving out the entries whose
    customer no longer exists; it changes nothing, so a second call right
    after the first prints exactly the same lines. *)
Theorem printWaitlist_stable (h : Heap) (r : Restaurant) :
  printWaitlist h r
  = (r, WaitlistHeader ::
        ((λ c, Waiting (getName (object h c)))
           <$> filter (λ c, live h r c = true) (waitlist r)))
  ∧ (let '(r1, out1) := printWaitlist h r in
     let '(r2, out2) := printWaitlist h r1 in
     out2 = out1 ∧ r2 = r).
Proof.
  unfold printWaitlist. split; [|done].
  by rewrite printWaitlist_names.
Qed.

(** * Further properties of the restaurant *)

Lemma releaseTable_loop_holders (h : Heap) (n : Z) (positions : list nat) :
  ∀ st, activeCustomers st.1
          `prefix_of`
        activeCustomers (foldl (releaseTable_body h n) st positions).1.
Proof.
  induction positions as [|i positions IH]; intros [r out]; [done|].
  cbn [foldl]. etrans; [|apply IH].
  unfold releaseTable_body. destruct (tables r !! i) as [t|]; [|done].
  case_decide; [|done]. destruct (negb (getIsAvailable t)); [|done].
  match goal with |- context [notifyWaitlist h ?r1] =>
    pose proof (notifyWaitlist_holders h r1) as Hpre;
    destruct (notifyWaitlist h r1) as [r2 out2] end.
  done.
Qed.

Lemma step_holders (a : Action) (w : World) :
  activeCustomers (restaurant w)
    `prefix_of` activeCustomers (restaurant (step a w).1).
Proof.
  destruct a as [pointer|n| |held]; destruct w as [h r]; simpl; try done.
  - unfold reserveTable. destruct (reserve_scan (tables r)) as [[m ts]|];
      simpl; [by apply prefix_app_r|done].
  - pose proof (releaseTable_loop_holders h n (seq 0 (length (tables r)))
                  (r, [])) as Hpre.
    unfold releaseTable. by destruct (foldl _ _ _).
Qed.

Lemma run_holders (tr : list Action) :
  ∀ w, activeCustomers (restaurant w)
         `prefix_of` activeCustomers (restaurant (run tr w).1).
Proof.
  induction tr as [|a tr IH]; intros w; [done|]. simpl.
  pose proof (step_holders a w) as Hs. specialize (IH (step a w).1).
  destruct (step a w) as [w1 out1]. simpl in *.
  destruct (run tr w1) as [w2 out2]. simpl in *. by etrans.
Qed.

Lemma trace_ok_app (ok : Action → World → bool) (tr1 tr2 : list Action) :
  ∀ w, trace_ok ok (tr1 ++ tr2) w
       = trace_ok ok tr1 w && trace_ok ok tr2 (run tr1 w).1.
Proof.
  induction tr1 as [|a tr1 IH]; intros w; [done|]. simpl.
  rewrite IH. destruct (step a w) as [w1 out1]. simpl.
  destruct (run tr1 w1) as [w2 out2]. simpl. by rewrite andb_assoc.
Qed.

Lemma run_app (tr1 tr2 : list Action) :
  ∀ w, (run (tr1 ++ tr2) w).1 = (run tr2 (run tr1 w).1).1.
Proof.
  induction tr1 as [|a tr1 IH]; intros w; simpl.
  - by destruct (run tr2 w).
  - destruct (step a w) as [w1 out1]. specialize (IH w1).
    destruct (run (tr1 ++ tr2) w1) as [w3 out3].
    destruct (run tr1 w1) as [w2 out2]. simpl in *.
    by destruct (run tr2 w2).
Qed.

Lemma reachable_extend (cap : Z) (w : World) (tr : list Action) :
  reachable cap w → admissible_trace tr w = true →
  reachable cap (run tr w).1.
Proof.
  intros (h & tr0 & Hadm0 & <-) Hadm. exists h, (tr0 ++ tr). split.
  - unfold admissible_trace in *. by rewrite trace_ok_app, Hadm0, Hadm.
  - apply run_app.
Qed.

(** X1.  [removeElement] called with a pointer that is not a slot of the
    vector erases every entry that shares ownership with it and keeps all
    other entries, in their order. *)
Theorem removeElement_erases_equivalent (vec : list ptr) (p : ptr) :
  removeElement vec (Outside p) = filter (λ x, x ≠ p) vec
  ∧ p ∉ removeElement vec (Outside p).
Proof.
  rewrite removeElement_Outside. split; [done|].
  intros [Hne _]%list_elem_of_filter. done.
Qed.

(** X2.  [removeElement(vec, vec[0])], as [notifyWaitlist] calls it: the
    front entry goes, together with the run of equivalent entries right
    behind it; the first different entry [e] is moved into the front slot,
    so from there on the entries equivalent to [e] are the ones erased,
    while later copies of the original front survive.  What is left is
    always taken from the entries behind the front, and is exactly those
    entries when the vector has no duplicates. *)
Theorem removeElement_own_front (front : ptr) (behind : list ptr) :
  removeElement (front :: behind) Front = compact_front front behind
  ∧ removeElement (front :: behind) Front `sublist_of` behind
  ∧ (NoDup (front :: behind) →
     removeElement (front :: behind) Front = behind).
Proof.
  rewrite removeElement_Front. split_and!; [done| |].
  - apply compact_front_sublist.
  - apply compact_front_fresh.
Qed.

Lemma removeElement_own_front_witness :
  removeElement [3; 4; 5] Front = [4; 5].
Proof.
  apply (removeElement_own_front 3 [4; 5]).
  apply (bool_decide_unpack _). vm_compute. exact I.
Defined.

(** X3.  The pool is fixed at construction: in every reachable state the
    tables are those numbered [1 .. initialTableCount], in that order; no
    call adds, drops, renumbers or reorders a table. *)
Theorem pool_never_changes (cap : Z) (w : World) :
  reachable cap w →
  number <$> tables (restaurant w) = seqZ 1 cap
  ∧ length (tables (restaurant w)) = Z.to_nat cap.
Proof.
  intros [Hnum _ _]%reachable_invariant. split; [exact Hnum|].
  unfold pool_numbered, numbers in Hnum.
  by rewrite <- (length_fmap number), Hnum, length_seqZ.
Qed.

Lemma pool_never_changes_witness :
  let w := (run main_trace (init main_heap 2)).1 in
  number <$> tables (restaurant w) = seqZ 1 2
  ∧ length (tables (restaurant w)) = Z.to_nat 2.
Proof.
  apply (pool_never_changes 2 (run main_trace (init main_heap 2)).1).
  apply reachable_run. reflexivity.
Defined.

Lemma occupied_all_taken (ts : list Table) :
  Forall (λ t, isAvailable t = false) ts → occupied ts = length ts.
Proof.
  unfold occupied. induction 1 as [|t ts Ht _ IH]; [done|].
  rewrite filter_cons_True by done. simpl. by rewrite IH.
Qed.

(** X4.  Nobody who could be seated is kept waiting at the head of the
    waitlist: in every reachable state, if the customer at the head of the
    waitlist is still alive, every table is occupied. *)
Theorem live_head_means_full (cap : Z) (w : World) (w0 : ptr) (q : list ptr) :
  reachable cap w →
  waitlist (restaurant w) = w0 :: q →
  live (heap w) (restaurant w) w0 = true →
  Forall (λ t, isAvailable t = false) (tables (restaurant w))
  ∧ occupied (tables (restaurant w)) = Z.to_nat cap.
Proof.
  intros Hreach Hw Hlive.
  pose proof (reachable_invariant _ _ Hreach) as [Hnum _ Hblk].
  pose proof (Hblk w0 q Hw Hlive) as Hall. split; [done|].
  rewrite occupied_all_taken by done.
  unfold pool_numbered, numbers in Hnum.
  by rewrite <- (length_fmap number), Hnum, length_seqZ.
Qed.

Lemma live_head_means_full_witness :
  let w := (run [Request 1; Request 2; Request 3] (init main_heap 2)).1 in
  Forall (λ t, isAvailable t = false) (tables (restaurant w))
  ∧ occupied (tables (restaurant w)) = Z.to_nat 2.
Proof.
  apply (live_head_means_full 2
           (run [Request 1; Request 2; Request 3] (init main_heap 2)).1
           3 []).
  - apply reachable_run. reflexivity.
  - reflexivity.
  - reflexivity.
Defined.

(** X5.  [activeCustomers] only ever grows at its end: whatever calls are
    made and whatever pointers the application drops, every customer
    listed as active stays listed, at the same position, and is therefore
    never destroyed while the restaurant exists. *)
Theorem active_customers_stay (tr : list Action) (w : World) (p : ptr) :
  activeCustomers (restaurant w)
    `prefix_of` activeCustomers (restaurant (run tr w).1)
  ∧ (p ∈ activeCustomers (restaurant w) →
     live (heap (run tr w).1) (restaurant (run tr w).1) p = true).
Proof.
  pose proof (run_holders tr w) as Hpre. split; [done|].
  intros Hp. apply live_holder.
  destruct Hpre as [added ->]. apply elem_of_app. by left.
Qed.

Lemma active_customers_stay_witness :
  let w := (run [Request 1] (init main_heap 1)).1 in
  let tr := [Application []; Release 1; Request 2; Application []] in
  live (heap (run tr w).1) (restaurant (run tr w).1) 1 = true.
Proof.
  apply (active_customers_stay
           [Application []; Release 1; Request 2; Application []]
           (run [Request 1] (init main_heap 1)).1 1).
  apply (bool_decide_unpack _). vm_compute. exact I.
Defined.

Lemma blocked_by_step (cap : Z) (stuck : list ptr) (a : Action) (w : World) :
  stuck ≠ [] → admissible a w = true →
  invariant cap w ∧ blocked_by stuck w →
  invariant cap (step a w).1 ∧ blocked_by stuck (step a w).1.
Proof.
  intros Hne Hadm [Hinv [Hpre Hdead]].
  split; [by apply invariant_step|].
  destruct stuck as [|w0 q]; [done|]. specialize (Hdead w0 q eq_refl).
  destruct a as [pointer|n| |held]; destruct w as [h r]; simpl in *.
  - unfold reserveTable.
    destruct (reserve_scan (tables r)) as [[m ts]|]; split; simpl; try done.
    + intros ? ? [= <- <-]. apply not_true_is_false. intros Hl.
      destruct (live_new_holder h r
                  {| tables := ts;
                     activeCustomers := activeCustomers r ++ [pointer];
                     waitlist := waitlist r |} pointer w0 eq_refl Hl)
        as [?| ->]; congruence.
    + destruct Hpre as [rest ->]. rewrite <- (assoc_L (++)).
      by apply prefix_app_r.
    + intros ? ? [= <- <-]. by rewrite (live_same_holders h r).
  - destruct (releaseTable_case cap h r n Hinv)
      as [Hout|k t Hk Hn Ht|k t Hk Hn Ht Hstale|k t w1 q1 Hk Hn Ht Hw Hlive];
      simpl.
    + split; [done|]. by intros ? ? [= <- <-].
    + split; [done|]. by intros ? ? [= <- <-].
    + split; [done|]. intros ? ? [= <- <-].
      by rewrite (live_same_holders h r).
    + exfalso. destruct Hpre as [rest Hpre]. rewrite Hw in Hpre.
      injection Hpre as -> _. congruence.
  - split; [done|]. by intros ? ? [= <- <-].
  - split; [done|]. intros ? ? [= <- <-].
    rewrite forallb_forall in Hadm. specialize (Hadm w0).
    destruct Hpre as [rest Hpre]. rewrite Hpre in Hadm.
    assert (Hin : In w0 ((w0 :: q) ++ rest)) by (by left).
    specialize (Hadm Hin). rewrite Hdead in Hadm.
    simpl. by destruct (live _ r w0).
Qed.

(** X6.  An expired customer at the head of the waitlist blocks it for
    good.  Once the head has expired, after any further calls and
    application activity the waitlist still begins with the same entries
    (later requests only queue up behind them), the head is still expired,
    and every [releaseTable] call prints at most "released" or "already
    free": no waiting customer is ever seated again. *)
Theorem expired_head_blocks_waitlist (cap : Z) (w : World) (w0 : ptr)
    (q : list ptr) (tr : list Action) :
  reachable cap w →
  waitlist (restaurant w) = w0 :: q →
  live (heap w) (restaurant w) w0 = false →
  admissible_trace tr w = true →
  let w' := (run tr w).1 in
  (w0 :: q) `prefix_of` waitlist (restaurant w')
  ∧ live (heap w') (restaurant w') w0 = false
  ∧ ∀ n line, line ∈ (step (Release n) w').2 →
              line = Released n ∨ line = AlreadyFree n.
Proof.
  intros Hreach Hw Hdead Hadm. simpl.
  assert (Hrun : invariant cap (run tr w).1 ∧ blocked_by (w0 :: q) (run tr w).1).
  { apply (run_invariant admissible
             (λ w, invariant cap w ∧ blocked_by (w0 :: q) w)); [| |done].
    - intros a w1. by apply blocked_by_step.
    - split; [by apply reachable_invariant|]. split.
      + by rewrite Hw.
      + by intros ? ? [= <- <-]. }
  destruct Hrun as [Hinv [Hpre Hstill]].
  specialize (Hstill w0 q eq_refl). split_and!; try done.
  intros n line. destruct (run tr w).1 as [h r]; simpl in *.
  destruct (releaseTable_case cap h r n Hinv)
    as [Hout|k t Hk Hn Ht|k t Hk Hn Ht Hstale|k t w1 q1 Hk Hn Ht Hw1 Hlive];
    simpl.
  - by intros ?%elem_of_nil.
  - intros ->%list_elem_of_singleton. by right.
  - intros ->%list_elem_of_singleton. by left.
  - exfalso. destruct Hpre as [rest Hpre]. rewrite Hw1 in Hpre.
    injection Hpre as -> _. congruence.
Qed.

Lemma expired_head_blocks_waitlist_witness :
  let w := (run [Request 1; Request 2; Application [1; 3; 4]]
                (init main_heap 1)).1 in
  let w' := (run [Release 1; Request 3; Request 4; Release 1] w).1 in
  [2] `prefix_of` waitlist (restaurant w')
  ∧ live (heap w') (restaurant w') 2 = false
  ∧ ∀ n line, line ∈ (step (Release n) w').2 →
              line = Released n ∨ line = AlreadyFree n.
Proof.
  apply (expired_head_blocks_waitlist 1
           (run [Request 1; Request 2; Application [1; 3; 4]]
                (init main_heap 1)).1
           2 [] [Release 1; Request 3; Request 4; Release 1]).
  - apply reachable_run. reflexivity.
  - reflexivity.
  - reflexivity.
  - reflexivity.
Defined.

(** X7.  [releaseTable(n)] never touches another table: in every
    reachable state each table whose number is not [n] is in the same
    state, at the same position, after the call, including when the call
    seats the head of the waitlist. *)
Theorem release_leaves_other_tables (cap : Z) (w : World) (n : Z) (k : nat)
    (t : Table) :
  reachable cap w →
  tables (restaurant w) !! k = Some t → number t ≠ n →
  tables (releaseTable (heap w) n (restaurant w)).1 !! k = Some t.
Proof.
  intros Hinv%reachable_invariant Hk Hne. destruct w as [h r]; simpl in *.
  destruct (releaseTable_case cap h r n Hinv)
    as [Hout|k0 t0 Hk0 Hn Ht|k0 t0 Hk0 Hn Ht Hstale|k0 t0 w1 q1 Hk0 Hn Ht _ _];
    simpl; try done.
  rewrite list_lookup_insert_ne; [done|]. intros ->. congruence.
Qed.

Lemma release_leaves_other_tables_witness :
  tables (releaseTable main_heap 1
            (restaurant (run [Request 1; Request 2] (init main_heap 2)).1)).1
    !! 1
  = Some {| number := 2; isAvailable := false |}.
Proof.
  apply (release_leaves_other_tables 2
           (run [Request 1; Request 2] (init main_heap 2)).1 1 1
           {| number := 2; isAvailable := false |}).
  - apply reachable_run. reflexivity.
  - reflexivity.
  - done.
Defined.

(** X8.  A customer who is put on the waitlist shows up last in the
    listing: when no table is free, [reserveTable] returns [false] and a
    following [printWaitlist] prints what it would have printed before,
    followed by the new customer's name. *)
Theorem queued_customer_listed_last (h : Heap) (r : Restaurant)
    (pointer : ptr) :
  live h r pointer = true →
  Forall (λ t, isAvailable t = false) (tables r) →
  let '(b, r', _) := reserveTable h pointer r in
  b = false
  ∧ (printWaitlist h r').2
    = (printWaitlist h r).2 ++ [Waiting (getName (object h pointer))].
Proof.
  intros Hlive Hfull. unfold reserveTable.
  rewrite (proj2 (reserve_scan_None _) Hfull). split; [done|].
  unfold printWaitlist. cbn [snd waitlist].
  rewrite !printWaitlist_names. simpl.
  rewrite filter_app, fmap_app. f_equal.
  rewrite filter_cons_True, filter_nil; [done|].
  by rewrite (live_same_holders h r).
Qed.

Lemma queued_customer_listed_last_witness :
  let r := restaurant (run [Request 1; Request 2; Request 3]
                           (init main_heap 2)).1 in
  let '(b, r', _) := reserveTable main_heap 4 r in
  b = false
  ∧ (printWaitlist main_heap r').2
    = (printWaitlist main_heap r).2 ++ [Waiting "Dai"].
Proof.
  apply (queued_customer_listed_last main_heap
           (restaurant (run [Request 1; Request 2; Request 3]
                            (init main_heap 2)).1) 4).
  - reflexivity.
  - apply (bool_decide_unpack _). vm_compute. exact I.
Defined.

(** * Properties of the library *)

Section LibraryProperties.
Import LibrarySystem.

Lemma scan_elem_of (vec : list string) (title : string) :
  scan vec title = true ↔ title ∈ vec.
Proof.
  induction vec as [|x vec IH]; simpl.
  - split; [done|]. by intros ?%elem_of_nil.
  - case_decide as Hx.
    + subst. split; [|done]. intros _. left.
    + rewrite IH. split; [by right|].
      intros [?|?]%elem_of_cons; [congruence|done].
Qed.

Lemma scan_not_elem_of (vec : list string) (title : string) :
  scan vec title = false ↔ title ∉ vec.
Proof.
  rewrite <- scan_elem_of. by destruct (scan vec title).
Qed.

Lemma find_first (vec : list string) (s : string) :
  s ∈ vec →
  ∃ l1 l2, vec = l1 ++ s :: l2 ∧ (s ∉ l1) ∧ find vec s = length l1.
Proof.
  induction vec as [|x vec IH]; [by intros ?%elem_of_nil|].
  intros Hin. simpl. case_decide as Hx.
  - subst. exists [], vec. split_and!; try done. by intros ?%elem_of_nil.
  - apply elem_of_cons in Hin as [?|Hin]; [congruence|].
    destruct (IH Hin) as (l1 & l2 & -> & Hnot & Hfind).
    exists (x :: l1), l2. split_and!; try done.
    + intros [?|?]%elem_of_cons; [congruence|done].
    + simpl. by rewrite Hfind.
Qed.

Lemma find_absent (vec : list string) (s : string) :
  s ∉ vec → find vec s = length vec.
Proof.
  induction vec as [|x vec IH]; [done|]. intros Hnot. simpl.
  case_decide as Hx.
  - subst. exfalso. apply Hnot. left.
  - rewrite IH; [done|]. intros ?. apply Hnot. by right.
Qed.

Lemma removeElement_present (l1 l2 : list string) (s : string) :
  s ∉ l1 → removeElement (l1 ++ s :: l2) s = l1 ++ l2.
Proof.
  intros Hnot. unfold removeElement.
  assert (Hfind : find (l1 ++ s :: l2) s = length l1).
  { clear -Hnot. induction l1 as [|x l1 IH]; simpl.
    - by rewrite decide_True.
    - rewrite decide_False.
      + rewrite IH; [done|]. intros ?. apply Hnot. by right.
      + intros ->. apply Hnot. left. }
  rewrite Hfind, decide_True by (rewrite length_app; simpl; lia).
  apply delete_middle.
Qed.

Lemma removeElement_absent (vec : list string) (s : string) :
  s ∉ vec → removeElement vec s = vec.
Proof.
  intros Hnot. unfold removeElement.
  by rewrite find_absent, decide_False by (done || lia).
Qed.

Lemma run_keeps (P : State → Prop) :
  (∀ a st, P st → P (step a st).1) →
  ∀ tr st, P st → P (run tr st).1.
Proof.
  intros Hstep. induction tr as [|a tr IH]; intros st Hst; [done|].
  simpl. specialize (IH (step a st).1 (Hstep a st Hst)).
  destruct (step a st) as [st1 out1]. simpl in *.
  by destruct (run tr st1) as [st2 out2].
Qed.

(** The run of the library's [main.cpp] prints what the repository lists
    as expected output (the driver's own first and last lines aside), and
    ends with one book borrowed and a budget of 3950. *)
Example library_main_output :
  run main_trace (init main_globals)
  = ({| globals := {| totalBorrowedBooks := 1;
                      libraryBudget := 3950%float |};
        library := {| bookList := ["The Great Gatsby"; "1984"];
                      reservedCount := 1;
                      reservedBooks := ["1984"] |} |},
     [Book "The Great Gatsby"; Book "1984"; Book "To Kill a Mockingbird";
      BookReserved "1984"; ReservedCount 1; BookBorrowed]).
Proof. by vm_compute. Qed.

(** X9.  [removeElement(vec, s)] on strings erases the first entry equal
    to [s] and nothing else: the entries before and after it keep their
    order, later copies of [s] stay; a vector without [s] is left as it
    is. *)
Theorem removeElement_first_occurrence (vec : list string) (s : string) :
  (s ∈ vec →
   ∃ l1 l2, vec = l1 ++ s :: l2 ∧ (s ∉ l1)
            ∧ removeElement vec s = l1 ++ l2)
  ∧ (s ∉ vec → removeElement vec s = vec).
Proof.
  split.
  - intros (l1 & l2 & -> & Hnot & _)%find_first.
    exists l1, l2. split_and!; try done. by apply removeElement_present.
  - apply removeElement_absent.
Qed.

Lemma removeElement_first_occurrence_witness :
  (∃ l1 l2, ["a"; "b"; "a"] = l1 ++ "a" :: l2 ∧ ("a" ∉ l1)
            ∧ removeElement ["a"; "b"; "a"] "a" = l1 ++ l2)
  ∧ removeElement ["a"; "b"] "c" = ["a"; "b"].
Proof.
  split.
  - apply (proj1 (removeElement_first_occurrence ["a"; "b"; "a"] "a")).
    apply (bool_decide_unpack _). vm_compute. exact I.
  - apply (proj2 (removeElement_first_occurrence ["a"; "b"] "c")).
    apply (bool_decide_unpack _). vm_compute. exact I.
Defined.



(** X11.  A library never holds more than 100 books, whatever is called on
    it; and [addBook] on a library that already holds 100 is refused: it
    prints "Library is full!" and neither the shelf nor the budget
    changes. *)
Theorem bookList_capacity (g : Globals) (tr : list Action) :
  length (bookList (library (run tr (init g)).1)) ≤ 100
  ∧ ∀ title bookCost,
      length (bookList (library (run tr (init g)).1)) = 100 →
      step (AddBook title bookCost) (run tr (init g)).1
      = ((run tr (init g)).1, [LibraryFull]).
Proof.
  split.
  - apply (run_keeps (λ st, length (bookList (library st)) ≤ 100));
      [|simpl; lia].
    intros a [g0 l] Hle; simpl in *.
    destruct a as [title cost|title|title|]; simpl; try done.
    + unfold addBook. case_decide; simpl; [|done].
      rewrite length_app. simpl. lia.
    + unfold borrowBook.
      destruct (scan (bookList l) title) eqn:Hscan; simpl; [|done].
      apply scan_elem_of, find_first in Hscan as (l1 & l2 & Hl & Hnot & _).
      rewrite Hl, removeElement_present by done.
      rewrite Hl, !length_app in Hle. simpl in Hle. rewrite length_app. lia.
    + unfold reserveBook.
      destruct (scan (bookList l) title); simpl; [|done].
      by destruct (scan (reservedBooks l) title).
  - intros title cost Hfull. destruct (run tr (init g)).1 as [g0 l].
    simpl in *. unfold addBook. rewrite decide_False by lia. done.
Qed.

Lemma bookList_capacity_witness :
  step (AddBook "Emma" 10%float)
    (run (replicate 100 (AddBook "Emma" 10%float)) (init main_globals)).1
  = ((run (replicate 100 (AddBook "Emma" 10%float)) (init main_globals)).1,
     [LibraryFull]).
Proof.
  apply (proj2 (bookList_capacity main_globals
                  (replicate 100 (AddBook "Emma" 10%float)))).
  vm_compute. reflexivity.
Defined.

(** X12.  The reservation counter is the number of reserved titles, and
    no title is reserved twice, in every state a library can reach. *)
Theorem reservations_counted_once (g : Globals) (tr : list Action) :
  reservedCount (library (run tr (init g)).1)
  = Z.of_nat (length (reservedBooks (library (run tr (init g)).1)))
  ∧ NoDup (reservedBooks (library (run tr (init g)).1)).
Proof.
  apply (run_keeps
           (λ st, reservedCount (library st)
                  = Z.of_nat (length (reservedBooks (library st)))
                  ∧ NoDup (reservedBooks (library st)))).
  2:{ simpl. split; [done|]. apply NoDup_nil_2. }
  intros a [g0 l] [Hcount Hnd]; simpl in *.
  destruct a as [title cost|title|title|]; simpl; try done.
  - unfold addBook. by case_decide.
  - unfold borrowBook. by destruct (scan (bookList l) title).
  - unfold reserveBook. destruct (scan (bookList l) title); simpl; [|done].
    destruct (scan (reservedBooks l) title) eqn:Hres; simpl; [done|].
    apply scan_not_elem_of in Hres. split.
    + rewrite length_app. simpl. lia.
    + apply NoDup_app. split_and!; try done.
      * intros x Hx ->%list_elem_of_singleton. done.
      * apply NoDup_singleton.
Qed.

(** X13.  [reserveBook] never changes the shelf, and asking again is
    refused: whatever the first call did, a second [reserveBook] for the
    same title right after it prints "Book not reserved!" and changes
    nothing. *)
Theorem reserveBook_twice (title : string) (l : Library) :
  let '(l1, out1) := reserveBook title l in
  bookList l1 = bookList l
  ∧ reserveBook title l1 = (l1, [BookNotReserved]).
Proof.
  unfold reserveBook.
  destruct (scan (bookList l) title) eqn:Hin; simpl.
  - destruct (scan (reservedBooks l) title) eqn:Hres; simpl.
    + by rewrite Hin, Hres.
    + rewrite Hin. simpl.
      assert (Hnow : scan (reservedBooks l ++ [title]) title = true).
      { apply scan_elem_of, elem_of_app. right. left. }
      by rewrite Hnow.
  - by rewrite Hin.
Qed.









Lemma run_reserved (tr : list Action) :
  ∀ st, reservedBooks (library st)
          `prefix_of` reservedBooks (library (run tr st).1).
Proof.
  induction tr as [|a tr IH]; intros st; [done|]. simpl.
  assert (Hs : reservedBooks (library st)
                 `prefix_of` reservedBooks (library (step a st).1)).
  { destruct st as [g l]. destruct a as [title cost|title|title|]; simpl.
    - unfold addBook. by case_decide.
    - unfold borrowBook. by destruct (scan (bookList l) title).
    - unfold reserveBook. destruct (scan (bookList l) title); simpl; [|done].
      destruct (scan (reservedBooks l) title); simpl; [done|].
      by apply prefix_app_r.
    - done. }
  specialize (IH (step a st).1).
  destruct (step a st) as [st1 out1]. simpl in *.
  destruct (run tr st1) as [st2 out2]. simpl in *. by etrans.
Qed.

(** X16.  A reservation is never lifted: once a title is reserved it
    stays reserved through every later call, including the borrowing of
    that very book, so any later [reserveBook] for it is refused and
    changes nothing. *)
Theorem reservation_is_permanent (title : string) (tr : list Action)
    (st : State) :
  title ∈ reservedBooks (library st) →
  title ∈ reservedBooks (library (run tr st).1)
  ∧ reserveBook title (library (run tr st).1)
    = (library (run tr st).1, [BookNotReserved]).
Proof.
  intros Hin.
  assert (Hlater : title ∈ reservedBooks (library (run tr st).1)).
  { destruct (run_reserved tr st) as [added ->].
    apply elem_of_app. by left. }
  split; [done|]. unfold reserveBook.
  destruct (scan (bookList (library (run tr st).1)) title); simpl; [|done].
  by rewrite (proj2 (scan_elem_of _ _) Hlater).
Qed.

Lemma reservation_is_permanent_witness :
  let st := (run main_trace (init main_globals)).1 in
  let tr := [BorrowBook "1984"; AddBook "1984" 400%float] in
  "1984" ∈ reservedBooks (library (run tr st).1)
  ∧ reserveBook "1984" (library (run tr st).1)
    = (library (run tr st).1, [BookNotReserved]).
Proof.
  apply (reservation_is_permanent "1984"
           [BorrowBook "1984"; AddBook "1984" 400%float]
           (run main_trace (init main_globals)).1).
  apply (bool_decide_unpack _). vm_compute. exact I.
Defined.

End LibraryProperties.
